(** * Diffusion with first-order decay on a 1-D slab: FTCS solver, reference
      series solution and convergence study.

    Shallow embedding of
      - [code/params.py]                 (the parameter dictionary),
      - [code/numerical_solution_EE.py]  ([ftcs_solver]),
      - [code/analytical_solution.py]    ([analytical_concentration]),
      - [code/result_and_plot.py]        (the convergence study script).

    Arithmetic.  The Python code computes on IEEE doubles.  The embedding is
    generic in the carrier of its scalars (class [Arith]) wherever the code
    only adds, subtracts, multiplies, divides and compares, so that the solver
    can be run on rationals ([Q]) and reasoned about on the reals ([R]).
    Every theorem that depends on the laws of arithmetic is stated on [R]:
    it describes the program in exact arithmetic, with neither rounding nor
    overflow.  What survives of IEEE arithmetic is the part the script reacts
    to: a division of Python floats by zero raises [ZeroDivisionError], and a
    numpy operation outside its domain (division by zero, square root or
    logarithm of a non-positive number) yields a non-finite value. *)

From Stdlib Require Import ZArith List Bool Lia.
From Stdlib Require Import QArith Qreals.
From Stdlib Require Import Reals Lra Permutation.
Import ListNotations.

Set Implicit Arguments.

(* ================================================================== *)
(** ** Scalars *)

(** The operations the solver performs on floats. [of_Z] is the conversion of
    a Python [int] that takes part in float arithmetic. *)
Class Arith (T : Type) : Type := {
  zero : T;
  add : T -> T -> T;
  sub : T -> T -> T;
  mul : T -> T -> T;
  div : T -> T -> T;
  of_Z : Z -> T;
  gtb : T -> T -> bool;      (* x > y *)
  is_zero : T -> bool        (* x == 0.0 *)
}.

Declare Scope arith_scope.
Delimit Scope arith_scope with A.
Infix "+" := add : arith_scope.
Infix "-" := sub : arith_scope.
Infix "*" := mul : arith_scope.
Infix "/" := div : arith_scope.
Infix ">?" := gtb (at level 70, no associativity) : arith_scope.

(** A decimal literal [n/d], e.g. [0.5 = dec_lit 5 10]. *)
Definition dec_lit {T} `{Arith T} (n d : Z) : T := (of_Z n / of_Z d)%A.

#[export] Instance Q_arith : Arith Q := {|
  zero := 0%Q;
  add := Qplus;
  sub := Qminus;
  mul := Qmult;
  div := Qdiv;
  of_Z := inject_Z;
  gtb := fun x y => negb (Qle_bool x y);
  is_zero := fun x => Qeq_bool x 0%Q
|}.

Definition Rgtb (x y : R) : bool := if Rlt_dec y x then true else false.
Definition Req0b (x : R) : bool := if Req_dec_T x 0%R then true else false.

#[export] Instance R_arith : Arith R := {|
  zero := 0%R;
  add := Rplus;
  sub := Rminus;
  mul := Rmult;
  div := Rdiv;
  of_Z := IZR;
  gtb := Rgtb;
  is_zero := Req0b
|}.

(* ================================================================== *)
(** ** Exceptions and standard output *)

Inductive exn : Type :=
| ZeroDivisionError
| ValueError
| IndexError
| TypeError
| LinAlgError.

(** What the programs print, and the numpy warning the fit can emit. *)
Inductive message (T : Type) : Type :=
| WarnUnstable (alpha : T)   (* "WARNING: Unstable! alpha (..) > 0.5." *)
| AdviceReduce               (* "Reduce dt or increase dx." *)
| RunningStudy               (* "Running Convergence Study (Log-Log Plot)..." *)
| GridUnstable (N : Z)       (* "Grid N=.. was unstable!" *)
| RankWarning                (* numpy: "Polyfit may be poorly conditioned" *)
| SlopeReport (slope : T).   (* "Calculated Convergence Slope: .." *)
Arguments AdviceReduce {T}.
Arguments RunningStudy {T}.
Arguments GridUnstable {T} N.
Arguments RankWarning {T}.

Inductive outcome (A : Type) : Type :=
| Ok (a : A)
| Raise (e : exn).
Arguments Raise {A} e.

(** A run threads the lines printed so far and ends with a value or with an
    uncaught exception. *)
Definition Run (T A : Type) : Type := list (message T) -> outcome A * list (message T).

Definition ret {T A} (a : A) : Run T A := fun out => (Ok a, out).
Definition raise {T A} (e : exn) : Run T A := fun out => (Raise e, out).
Definition print {T} (m : message T) : Run T unit := fun out => (Ok tt, out ++ [m]).
Definition bind {T A B} (m : Run T A) (f : A -> Run T B) : Run T B :=
  fun out =>
    match m out with
    | (Ok a, out') => f a out'
    | (Raise e, out') => (Raise e, out')
    end.

Declare Scope run_scope.
Delimit Scope run_scope with run.
Notation "x <- m ;; f" := (bind m (fun x => f))
  (at level 61, m at next level, right associativity) : run_scope.
Notation "' pat <- m ;; f" := (bind m (fun x => match x with pat => f end))
  (at level 61, pat pattern, m at next level, right associativity) : run_scope.
Notation "m ;;; f" := (bind m (fun _ => f))
  (at level 61, right associativity) : run_scope.

(* ================================================================== *)
(** ** Parameters ([params.py]) *)

Module Params.
Record t (T : Type) : Type := make {
  L : T;         (* length of tissue *)
  D : T;         (* diffusion coefficient *)
  k : T;         (* decay rate constant *)
  c0 : T;        (* source concentration *)
  T_final : T    (* simulation time *)
}.
End Params.

Definition params {T} `{Arith T} : Params.t T :=
  {| Params.L := dec_lit 5 1000;
     Params.D := dec_lit 1 10000000000;
     Params.k := dec_lit 2 10000;
     Params.c0 := dec_lit 1 1;
     Params.T_final := of_Z (3600 * 2) |}.

(** Two small parameter sets on rationals, to run the solver on. *)
Definition small_params : Params.t Q :=
  {| Params.L := 1; Params.D := 1 # 16; Params.k := 1; Params.c0 := 1;
     Params.T_final := 1 |}%Q.

Definition fast_params : Params.t Q :=
  {| Params.L := 1; Params.D := 1; Params.k := 1 # 5; Params.c0 := 3;
     Params.T_final := 2 |}%Q.

(* ================================================================== *)
(** ** Arrays: the numpy operations the programs use *)

Section Arrays.
Context {T : Type} `{Arith T}.
Local Open Scope arith_scope.

(** Elementwise operations on arrays of one shape. *)
Fixpoint map2 (f : T -> T -> T) (u v : list T) : list T :=
  match u, v with
  | a :: u', b :: v' => f a b :: map2 f u' v'
  | _, _ => []
  end.

Definition vadd : list T -> list T -> list T := map2 add.
Definition vsub : list T -> list T -> list T := map2 sub.
Definition vmul : list T -> list T -> list T := map2 mul.
Definition smul (s : T) (v : list T) : list T := map (mul s) v.

(** [np.zeros(n)]. *)
Definition np_zeros (n : Z) : Run T (list T) :=
  if (n <? 0)%Z then raise ValueError else ret (repeat zero (Z.to_nat n)).

(** [np.linspace(start, stop, num)], endpoint included: the samples are
    [i * step + start] and the last one is then overwritten with [stop]. *)
Definition linspace_points (start stop : T) (num : Z) : list T :=
  let dv := of_Z (num - 1) in
  let delta := stop - start in
  let step := delta / dv in
  let y i :=
    if (num - 1 >? 0)%Z
    then (if is_zero step then (of_Z i / dv) * delta else of_Z i * step) + start
    else of_Z i * delta + start in
  let ys := map (fun i => y (Z.of_nat i)) (seq 0 (Z.to_nat num)) in
  if (num >? 1)%Z then removelast ys ++ [stop] else ys.

Definition np_linspace (start stop : T) (num : Z) : Run T (list T) :=
  if (num <? 0)%Z then raise ValueError else ret (linspace_points start stop num).

(** The slices [a[1:-1]], [a[2:]] and [a[:-2]]. *)
Definition interior (a : list T) : list T := removelast (tl a).
Definition from2 (a : list T) : list T := skipn 2 a.
Definition upto_m2 (a : list T) : list T := firstn (length a - 2) a.

(** [a[1:-1] = v], for [v] of the shape of [a[1:-1]]. *)
Definition set_interior (a v : list T) : list T :=
  match a with
  | a0 :: (_ :: _) as r => a0 :: v ++ [last r a0]
  | _ => a
  end.

(** [a[:] = v] for a scalar [v]. *)
Definition fill (a : list T) (v : T) : list T := map (fun _ => v) a.

(** [a[0] = v]; an empty array has no index 0. *)
Definition set_first (a : list T) (v : T) : list T :=
  match a with
  | _ :: r => v :: r
  | [] => []
  end.

Definition setitem0 (a : list T) (v : T) : Run T (list T) :=
  match a with
  | _ :: _ => ret (set_first a v)
  | [] => raise IndexError
  end.

(** [a[-1] = v]. *)
Definition set_last (a : list T) (v : T) : list T :=
  match a with
  | _ :: _ => removelast a ++ [v]
  | [] => []
  end.

(** Python's [x / n] for a float [x] and an [int] [n], and [x / y] for two
    floats: both raise on a zero divisor. *)
Definition truediv_int (x : T) (n : Z) : Run T T :=
  if (n =? 0)%Z then raise ZeroDivisionError else ret (x / of_Z n).

Definition truediv (x y : T) : Run T T :=
  if is_zero y then raise ZeroDivisionError else ret (x / y).

End Arrays.

(* ================================================================== *)
(** ** The explicit solver ([numerical_solution_EE.py]) *)

Section Solver.
Context {T : Type} `{Arith T}.
Local Open Scope arith_scope.
Local Open Scope run_scope.

Definition stability_limit : T := dec_lit 5 10.

(** The derived quantities of lines 9, 10 and 14. *)
Definition grid_spacing (p : Params.t T) (Nx : Z) : T := Params.L p / of_Z Nx.
Definition time_increment (p : Params.t T) (Nt : Z) : T := Params.T_final p / of_Z Nt.
Definition stability_ratio (p : Params.t T) (Nx Nt : Z) : T :=
  (Params.D p * time_increment p Nt) / (grid_spacing p Nx * grid_spacing p Nx).

(** The right-hand side of line 40:
    [c[1:-1] + alpha * (c[2:] - 2*c[1:-1] + c[:-2]) - k * dt * c[1:-1]]. *)
Definition interior_update (alpha k dt : T) (c : list T) : list T :=
  vsub (vadd (interior c)
             (smul alpha (vadd (vsub (from2 c) (smul (of_Z 2) (interior c)))
                               (upto_m2 c))))
       (smul (k * dt) (interior c)).

(** One pass of the loop body (lines 40 to 47) on the two buffers [(c, c_new)].
    The two item assignments cannot raise: [c[0] = c0] has succeeded on an
    array of the same shape before the loop is entered. *)
Definition time_step (alpha k dt c0 : T) (st : list T * list T) : list T * list T :=
  let '(c, c_new) := st in
  let c_new := set_interior c_new (interior_update alpha k dt c) in
  let c_new := set_first c_new c0 in
  let c_new := set_last c_new zero in
  let c := c_new in
  (c, c_new).

Definition ftcs_solver (p : Params.t T) (Nx Nt : Z) : Run T (list T * list T) :=
  let '(L, D, k, c0, T_final) :=
    (Params.L p, Params.D p, Params.k p, Params.c0 p, Params.T_final p) in
  dx <- truediv_int L Nx ;;
  dt <- truediv_int T_final Nt ;;
  x <- np_linspace zero L (Nx + 1) ;;
  alpha <- truediv (D * dt) (dx * dx) ;;
  (if alpha >? stability_limit
   then print (WarnUnstable alpha) ;;; print AdviceReduce
   else ret tt) ;;;
  c <- np_zeros (Nx + 1) ;;
  c_new <- np_zeros (Nx + 1) ;;
  let c := fill c zero in
  c <- setitem0 c c0 ;;
  let '(c, _) := Nat.iter (Z.to_nat Nt) (time_step alpha k dt c0) (c, c_new) in
  ret (x, c).

(** The concentration field after [n] passes of the loop, [n <= Nt]. *)
Definition field_after (p : Params.t T) (Nx Nt : Z) (n : nat) : list T :=
  let c := set_first (repeat zero (Z.to_nat (Nx + 1))) (Params.c0 p) in
  let c_new := repeat zero (Z.to_nat (Nx + 1)) in
  fst (Nat.iter n
         (time_step (stability_ratio p Nx Nt) (Params.k p) (time_increment p Nt)
                    (Params.c0 p))
         (c, c_new)).

End Solver.

(* ================================================================== *)
(** ** numpy values on the reals *)

(** A numpy float in exact arithmetic: a real number, or [None] for a value
    that is not finite ([nan] or an infinity).  The operations below are the
    ones the programs apply to such values, and as the programs apply them
    they map a non-finite argument to a non-finite result (no divisor is ever
    infinite: without overflow the only non-finite divisor is the [nan] that
    comes from the square root of a negative [k/D]). *)
Definition npfloat : Type := option R.

Definition np_lift2 (f : R -> R -> R) (x y : npfloat) : npfloat :=
  match x, y with
  | Some a, Some b => Some (f a b)
  | _, _ => None
  end.

(** numpy division: a zero divisor gives [nan] or an infinity, not an
    exception. *)
Definition np_div (x y : npfloat) : npfloat :=
  match x, y with
  | Some a, Some b => if Req_dec_T b 0 then None else Some (a / b)%R
  | _, _ => None
  end.

#[export] Instance np_arith : Arith npfloat := {|
  zero := Some 0%R;
  add := np_lift2 Rplus;
  sub := np_lift2 Rminus;
  mul := np_lift2 Rmult;
  div := np_div;
  of_Z := fun n => Some (IZR n);
  gtb := fun x y => match x, y with Some a, Some b => Rgtb a b | _, _ => false end;
  is_zero := fun x => match x with Some a => Req0b a | None => false end
|}.

(** [np.sqrt], [np.log]: outside the domain the result is not finite. *)
Definition np_sqrt (x : npfloat) : npfloat :=
  match x with
  | Some a => if Rlt_dec a 0 then None else Some (sqrt a)
  | None => None
  end.

Definition np_log (x : npfloat) : npfloat :=
  match x with
  | Some a => if Rlt_dec 0 a then Some (ln a) else None
  | None => None
  end.

Definition np_sinh : npfloat -> npfloat := option_map sinh.
Definition np_sin : npfloat -> npfloat := option_map sin.
Definition np_exp : npfloat -> npfloat := option_map exp.

(** [np.mean]: the sum over the count; the mean of an empty array is [nan]. *)
Definition np_sum (a : list npfloat) : npfloat := fold_right add zero a.
Definition np_mean (a : list npfloat) : npfloat :=
  np_div (np_sum a) (Some (INR (length a))).

Definition np_isfinite (x : npfloat) : bool :=
  match x with
  | Some _ => true
  | None => false
  end.

(** An array of finite values as a numpy array. *)
Definition asarray (a : list R) : list npfloat := map Some a.

(** The finite values of an array, when all of them are finite. *)
Fixpoint all_finite (a : list npfloat) : option (list R) :=
  match a with
  | [] => Some []
  | Some v :: a' => option_map (cons v) (all_finite a')
  | None :: _ => None
  end.

(* ================================================================== *)
(** ** The reference solution ([analytical_solution.py]) *)

Section Reference.
Local Open Scope R_scope.
Local Open Scope run_scope.

(** [range(lo, hi)]. *)
Definition range (lo hi : Z) : list Z :=
  map (fun i => (lo + Z.of_nat i)%Z) (seq 0 (Z.to_nat (hi - lo))).

(** [for n in ns: acc = body(n, acc)]. *)
Fixpoint for_each {A S} (ns : list A) (body : A -> S -> Run R S) (acc : S) : Run R S :=
  match ns with
  | [] => ret acc
  | n :: ns' => acc' <- body n acc ;; for_each ns' body acc'
  end.

(** Line 22: the steady state [u(x)]. *)
Definition steady_state (L c0 : R) (gamma : npfloat) (x_arr : list npfloat) : list npfloat :=
  map (fun x => ((Some c0 * np_sinh (gamma * (Some L - x))) / np_sinh (gamma * Some L))%A)
      x_arr.

(** Lines 28 to 41: the mode [n] is added to [c_transient]. *)
Definition add_mode (L D k c0 t : R) (x_arr : list npfloat) (n : Z)
    (c_transient : list npfloat) : Run R (list npfloat) :=
  q <- truediv (IZR n * PI) L ;;
  let lambda_n := q * q in
  let numerator := -2 * c0 * IZR n * PI in
  kD <- truediv k D ;;
  let denominator := (L * L) * (kD + lambda_n) in
  b_n <- truediv numerator denominator ;;
  let decay := np_exp (Some (- (D * lambda_n + k) * t)) in
  let spatial :=
    map (fun x => np_sin ((Some (IZR n * PI) * x) / Some L)%A) x_arr in
  ret (vadd c_transient (map (fun s => (Some b_n * s * decay)%A) spatial)).

Definition analytical_concentration (x_arr : list R) (t : R) (p : Params.t R)
    (n_terms : Z) : Run R (list npfloat) :=
  let '(L, D, k, c0) := (Params.L p, Params.D p, Params.k p, Params.c0 p) in
  let x_arr := asarray x_arr in
  kD <- truediv k D ;;
  let gamma := np_sqrt (Some kD) in
  let c_infinity := steady_state L c0 gamma x_arr in
  let c_transient := fill x_arr zero in
  c_transient <- for_each (range 1 (n_terms + 1)) (add_mode L D k c0 t x_arr) c_transient ;;
  ret (vadd c_infinity c_transient).

(** The value that lines 28 to 41 add at the coordinate [x] for the mode [n],
    and the steady state of line 22 at [x], when no division fails. *)
Definition mode_term (L D k c0 t : R) (n : Z) (x : R) : R :=
  let lambda_n := (IZR n * PI / L) * (IZR n * PI / L) in
  let b_n := (-2 * c0 * IZR n * PI) / ((L * L) * (k / D + lambda_n)) in
  b_n * sin (IZR n * PI * x / L) * exp (- (D * lambda_n + k) * t).

Definition transient_sum (L D k c0 t : R) (ns : list Z) (x : R) : R :=
  fold_left (fun acc n => acc + mode_term L D k c0 t n x) ns 0.

Definition steady_term (L D k c0 : R) (x : R) : R :=
  c0 * sinh (sqrt (k / D) * (L - x)) / sinh (sqrt (k / D) * L).

End Reference.

(* ================================================================== *)
(** ** The convergence study ([result_and_plot.py]) *)

Section Study.
Local Open Scope R_scope.
Local Open Scope run_scope.

(** Line 50: [np.sqrt(np.mean((c_num_conv - c_ana_conv)**2))]. *)
Definition rms_error (c_num : list R) (c_ana : list npfloat) : npfloat :=
  let d := vsub (asarray c_num) c_ana in
  np_sqrt (np_mean (vmul d d)).

(** The squared difference of one node, as line 50 computes it. *)
Definition sq_diff (xy : R * npfloat) : npfloat :=
  ((Some (fst xy) - snd xy) * (Some (fst xy) - snd xy))%A.

(** [np.polyfit(x, y, 1)]: the least-squares line through the points.
    numpy rejects an empty [x] (and arrays of different lengths) with a
    [TypeError]; its solver fails on input that is not finite; when the
    abscissas do not determine a line (all equal, in particular a single
    point) it emits a [RankWarning] and returns the solution of least norm
    of the column-scaled system. *)
Definition np_polyfit1 (x y : list npfloat) : Run R (R * R) :=
  match x with
  | [] => raise TypeError
  | _ :: _ =>
    if negb (length x =? length y)%nat then raise TypeError
    else
      match all_finite x, all_finite y with
      | Some xs, Some ys =>
        let n := INR (length xs) in
        let Sx := fold_right Rplus 0 xs in
        let Sy := fold_right Rplus 0 ys in
        let Sxx := fold_right Rplus 0 (map (fun a => a * a) xs) in
        let Sxy := fold_right Rplus 0 (map2 Rmult xs ys) in
        let det := n * Sxx - Sx * Sx in
        if Req0b det then
          let a := hd 0 xs in
          if Req0b a then raise LinAlgError
          else print RankWarning ;;; ret ((Sy / n) / (2 * a), (Sy / n) / 2)
        else
          let slope := (n * Sxy - Sx * Sy) / det in
          ret (slope, (Sy - slope * Sx) / n)
      | _, _ => raise LinAlgError
      end
  end.

(** Lines 43 to 50: the RMS error of the solver at resolution [N]. *)
Definition resolution_error (p : Params.t R) (N : Z) : Run R npfloat :=
  let Nt_conv := (2 * N ^ 2)%Z in
  '(x_grid, c_num_conv) <- ftcs_solver p N Nt_conv ;;
  c_ana_conv <- analytical_concentration x_grid (Params.T_final p) p 50 ;;
  ret (rms_error c_num_conv c_ana_conv).

(** Lines 40 to 58: the loop over the grids, with its [break]; [err] is the
    body of the loop up to line 50 and [L] is [params['L']]. *)
Fixpoint study_loop_with (err : Z -> Run R npfloat) (L : R) (grids : list Z)
    (errors dx_values : list R) : Run R (list R * list R) :=
  match grids with
  | [] => ret (errors, dx_values)
  | N :: grids' =>
    error <- err N ;;
    match error with
    | None => print (GridUnstable N) ;;; ret (errors, dx_values)
    | Some e =>
      dx <- truediv_int L N ;;
      study_loop_with err L grids' (errors ++ [e]) (dx_values ++ [dx])
    end
  end.

Definition study_loop (p : Params.t R) : list Z -> list R -> list R -> Run R (list R * list R) :=
  study_loop_with (resolution_error p) (Params.L p).

(** Lines 61 to 65: the slope of [log(error)] against [log(dx)]. *)
Definition slope_fit (errors dx_values : list R) : Run R (R * R) :=
  let log_dx := map np_log (asarray dx_values) in
  let log_err := map np_log (asarray errors) in
  '(slope, intercept) <- np_polyfit1 log_dx log_err ;;
  print (SlopeReport slope) ;;;
  ret (slope, intercept).

Record study_result : Type := {
  st_dx_values : list R;
  st_errors : list R;
  st_slope : R;
  st_intercept : R
}.

(** Lines 31 to 65 for a list of node counts. *)
Definition convergence_study_with (err : Z -> Run R npfloat) (L : R) (grids : list Z)
    : Run R study_result :=
  print RunningStudy ;;;
  '(errors, dx_values) <- study_loop_with err L grids [] [] ;;
  '(slope, intercept) <- slope_fit errors dx_values ;;
  ret {| st_dx_values := dx_values; st_errors := errors;
         st_slope := slope; st_intercept := intercept |}.

Definition convergence_study (p : Params.t R) (grids : list Z) : Run R study_result :=
  convergence_study_with (resolution_error p) (Params.L p) grids.

(** The node counts of line 32. *)
Definition grids : list Z := [20; 40; 80; 160; 320]%Z.

(** The reference parameters with the decay switched off. *)
Definition params_k0 : Params.t R :=
  {| Params.L := Params.L params; Params.D := Params.D params; Params.k := 0;
     Params.c0 := Params.c0 params; Params.T_final := Params.T_final params |}.

(** The invariant of a parameter set: every field but [k] is positive, and
    [k] is not negative. *)
Definition valid_params (p : Params.t R) : Prop :=
  0 < Params.L p /\ 0 < Params.D p /\ 0 <= Params.k p /\ 0 < Params.c0 p /\
  0 < Params.T_final p.

End Study.

(* ================================================================== *)
(** ** Auxiliary values used in the statements *)

(** A parameter set with another source concentration. *)
Definition with_source (p : Params.t R) (c : R) : Params.t R :=
  {| Params.L := Params.L p; Params.D := Params.D p; Params.k := Params.k p;
     Params.c0 := c; Params.T_final := Params.T_final p |}.

(** The straight line from [c0] at node [0] to [0] at node [Nx]. *)
Definition linear_profile (c0 : R) (Nx : Z) : list R :=
  map (fun i => (c0 * (1 - INR i / IZR Nx))%R) (seq 0 (Z.to_nat (Nx + 1))).

(** The Fourier coefficient [b_n] of lines 28 to 33. *)
Definition fourier_coefficient (L D k c0 : R) (n : Z) : R :=
  ((-2 * c0 * IZR n * PI) / ((L * L) * (k / D + (IZR n * PI / L) * (IZR n * PI / L))))%R.





(** Lines 71 to 74 of [result_and_plot.py]: the reference line of the
    log-log plot, [errors[0] * (dx_arr / dx_arr[0])**2].  (The value computed
    on line 72 is overwritten on line 74 before any use; it indexes the same
    two arrays.) *)
Definition reference_line (errors dx_values : list R) : Run R (list npfloat) :=
  match dx_values, errors with
  | d0 :: _, e0 :: _ =>
    ret (map (fun d => (Some e0 * ((Some d / Some d0) * (Some d / Some d0)))%A)
             dx_values)
  | _, _ => raise IndexError
  end.

(** The operations of the class on [R] are those of the reals. *)
Ltac arith_R :=
  cbn [zero add sub mul div of_Z gtb is_zero R_arith] in *.

(* ================================================================== *)
(** * Properties *)

Unset Implicit Arguments.

(** ** Runs *)

Lemma bind_ok {T A B} (m : Run T A) (f : A -> Run T B) out a out' :
  m out = (Ok a, out') -> bind m f out = f a out'.
Proof. intros E. unfold bind. now rewrite E. Qed.

Lemma bind_raise {T A B} (m : Run T A) (f : A -> Run T B) out e out' :
  m out = (Raise e, out') -> bind m f out = (Raise e, out').
Proof. intros E. unfold bind. now rewrite E. Qed.

(** ** Slices and elementwise operations *)

Section ArrayFacts.
Context {T : Type} `{Arith T}.
Local Open Scope arith_scope.

Lemma map2_length (f : T -> T -> T) u v :
  length (map2 f u v) = Nat.min (length u) (length v).
Proof.
  revert v. induction u as [|a u IH]; intros [|b v]; simpl; auto.
Qed.

Lemma nth_map2 (f : T -> T -> T) u v i d du dv :
  (i < length u)%nat -> (i < length v)%nat ->
  nth i (map2 f u v) d = f (nth i u du) (nth i v dv).
Proof.
  revert v i. induction u as [|a u IH]; intros [|b v] [|i]; simpl; try lia; auto.
  intros. apply IH; lia.
Qed.

Lemma nth_smul s v i d :
  (i < length v)%nat -> nth i (smul s v) d = s * nth i v d.
Proof.
  intros Hi. unfold smul.
  rewrite (nth_indep _ d (s * d)) by now rewrite length_map.
  apply (map_nth (mul s)).
Qed.

Lemma smul_length s v : length (smul s v) = length v.
Proof. apply length_map. Qed.

Lemma removelast_length (a : list T) : length (removelast a) = (length a - 1)%nat.
Proof.
  induction a as [|x [|y a] IH]; simpl in *; auto. rewrite IH. lia.
Qed.

Lemma nth_removelast (a : list T) i d :
  (i < length a - 1)%nat -> nth i (removelast a) d = nth i a d.
Proof.
  revert i. induction a as [|x [|y a] IH]; intros i Hi; simpl in *; try lia.
  destruct i; auto. apply IH. lia.
Qed.

Lemma interior_length (a : list T) : length (interior a) = (length a - 2)%nat.
Proof.
  unfold interior. rewrite removelast_length. destruct a; simpl; lia.
Qed.

Lemma nth_interior (a : list T) i d :
  (i < length a - 2)%nat -> nth i (interior a) d = nth (S i) a d.
Proof.
  intros Hi. unfold interior. rewrite nth_removelast.
  - destruct a; simpl in *; [lia | reflexivity].
  - destruct a; simpl in *; lia.
Qed.

Lemma from2_length (a : list T) : length (from2 a) = (length a - 2)%nat.
Proof. apply length_skipn. Qed.

Lemma nth_from2 (a : list T) i d : nth i (from2 a) d = nth (S (S i)) a d.
Proof. unfold from2. now rewrite nth_skipn. Qed.

Lemma upto_m2_length (a : list T) : length (upto_m2 a) = (length a - 2)%nat.
Proof. unfold upto_m2. rewrite length_firstn. lia. Qed.

Lemma nth_upto_m2 (a : list T) i d :
  (i < length a - 2)%nat -> nth i (upto_m2 a) d = nth i a d.
Proof.
  intros Hi. unfold upto_m2. rewrite nth_firstn.
  destruct (Nat.ltb_spec i (length a - 2)); [reflexivity | lia].
Qed.

(** The three slices of line 40 always have one shape, so that the
    elementwise operations never meet arrays of different lengths. *)
Lemma slices_same_shape (a : list T) :
  length (interior a) = length (from2 a) /\ length (interior a) = length (upto_m2 a).
Proof.
  rewrite interior_length, from2_length, upto_m2_length. auto.
Qed.

Lemma interior_update_length alpha k dt (c : list T) :
  length (interior_update alpha k dt c) = (length c - 2)%nat.
Proof.
  unfold interior_update, vsub, vadd.
  repeat (rewrite ?map2_length, ?smul_length, ?interior_length, ?from2_length,
            ?upto_m2_length).
  lia.
Qed.

(** Entry [i] of the right-hand side of line 40 is the stencil at node
    [i + 1] of the array it is computed from. *)
Lemma nth_interior_update alpha k dt (c : list T) i d :
  (i < length c - 2)%nat ->
  nth i (interior_update alpha k dt c) d =
    nth (S i) c d + alpha * (nth (S (S i)) c d - of_Z 2 * nth (S i) c d + nth i c d)
    - k * dt * nth (S i) c d.
Proof.
  intros Hi. unfold interior_update, vsub, vadd.
  assert (Li := interior_length c). assert (Lf := from2_length c).
  assert (Lu := upto_m2_length c).
  rewrite (nth_map2 _ _ _ _ d d d);
    [| repeat (rewrite ?map2_length, ?smul_length); lia
     | rewrite smul_length; lia].
  rewrite (nth_map2 _ _ _ _ d d d);
    [| lia | repeat (rewrite ?map2_length, ?smul_length); lia].
  rewrite !nth_smul; [| lia | repeat (rewrite ?map2_length, ?smul_length); lia].
  rewrite (nth_map2 _ _ _ _ d d d);
    [| repeat (rewrite ?map2_length, ?smul_length); lia | lia].
  rewrite (nth_map2 _ _ _ _ d d d); [| lia | rewrite smul_length; lia].
  rewrite nth_smul by lia.
  rewrite !nth_interior, nth_from2, nth_upto_m2 by lia.
  reflexivity.
Qed.

Lemma set_last_length (a : list T) v : length (set_last a v) = length a.
Proof.
  destruct a as [|x a]; [reflexivity|].
  unfold set_last. rewrite length_app, removelast_length. simpl. lia.
Qed.

(** One pass of the loop on buffers of [m + 2] nodes: the new field is the
    source value, the stencil values, and the sink value. *)
Lemma time_step_shape alpha k dt c0 (c c_new : list T) m :
  length c = S (S m) -> length c_new = S (S m) ->
  time_step alpha k dt c0 (c, c_new) =
    (c0 :: interior_update alpha k dt c ++ [zero],
     c0 :: interior_update alpha k dt c ++ [zero]).
Proof.
  intros Lc Ln. unfold time_step.
  destruct c_new as [|a0 [|a1 r]]; simpl in Ln; try lia.
  cbv [set_interior set_first].
  assert (E : set_last (c0 :: interior_update alpha k dt c ++ [last (a1 :: r) a0]) zero
              = c0 :: interior_update alpha k dt c ++ [zero]).
  { unfold set_last.
    change (c0 :: interior_update alpha k dt c ++ [last (a1 :: r) a0])
      with ((c0 :: interior_update alpha k dt c) ++ [last (a1 :: r) a0]).
    now rewrite removelast_last. }
  now rewrite E.
Qed.

Lemma fill_repeat (v : T) n : fill (repeat v n) v = repeat v n.
Proof. unfold fill. induction n; simpl; congruence. Qed.

End ArrayFacts.

(** ** The solver, for any carrier *)

Section SolverFacts.
Context {T : Type} `{Arith T}.
Local Open Scope arith_scope.

Lemma iter_time_step_shape alpha k dt c0 (c c_new : list T) m n :
  length c = S (S m) -> length c_new = S (S m) ->
  length (fst (Nat.iter n (time_step alpha k dt c0) (c, c_new))) = S (S m) /\
  length (snd (Nat.iter n (time_step alpha k dt c0) (c, c_new))) = S (S m).
Proof.
  intros Lc Ln. induction n as [|n IH]; simpl; [auto|].
  destruct (Nat.iter n (time_step alpha k dt c0) (c, c_new)) as [c1 c2].
  simpl in IH. destruct IH as [L1 L2].
  rewrite (time_step_shape _ _ _ _ _ _ _ L1 L2). simpl.
  rewrite length_app, interior_update_length, L1. simpl. lia.
Qed.

Lemma field_after_0 (p : Params.t T) Nx Nt :
  (0 <= Nx)%Z ->
  field_after p Nx Nt 0 = Params.c0 p :: repeat zero (Z.to_nat Nx).
Proof.
  intros HN. unfold field_after. simpl.
  replace (Z.to_nat (Nx + 1)) with (S (Z.to_nat Nx)) by lia. reflexivity.
Qed.

Lemma field_after_length (p : Params.t T) Nx Nt n :
  (1 <= Nx)%Z -> length (field_after p Nx Nt n) = Z.to_nat (Nx + 1).
Proof.
  intros HN. unfold field_after.
  assert (E : Z.to_nat (Nx + 1) = S (S (Z.to_nat (Nx - 1)))) by lia.
  rewrite E.
  apply iter_time_step_shape; simpl;
    now rewrite repeat_length.
Qed.

(** The field after pass [n + 1] in terms of the field after pass [n]. *)
Lemma field_after_S (p : Params.t T) Nx Nt n :
  (1 <= Nx)%Z ->
  field_after p Nx Nt (S n) =
    Params.c0 p
      :: interior_update (stability_ratio p Nx Nt) (Params.k p) (time_increment p Nt)
           (field_after p Nx Nt n)
      ++ [zero].
Proof.
  intros HN. unfold field_after. rewrite Nat.iter_succ.
  assert (E : Z.to_nat (Nx + 1) = S (S (Z.to_nat (Nx - 1)))) by lia.
  destruct (iter_time_step_shape (stability_ratio p Nx Nt) (Params.k p)
              (time_increment p Nt) (Params.c0 p)
              (set_first (repeat zero (Z.to_nat (Nx + 1))) (Params.c0 p))
              (repeat zero (Z.to_nat (Nx + 1)))
              (Z.to_nat (Nx - 1)) n) as [L1 L2].
  { rewrite E. simpl. now rewrite repeat_length. }
  { rewrite E. simpl. now rewrite repeat_length. }
  destruct (Nat.iter n _ _) as [c1 c2]. simpl fst in *. simpl snd in L2.
  pose proof (time_step_shape (stability_ratio p Nx Nt) (Params.k p)
                (time_increment p Nt) (Params.c0 p) c1 c2 _ L1 L2) as S1.
  unfold time_step in S1. now inversion S1.
Qed.

(** Whenever no division fails the solver returns the grid and the field
    after [Nt] passes, and prints the two warning lines exactly when the
    stability ratio exceeds the limit. *)
Lemma ftcs_solver_run (p : Params.t T) Nx Nt out :
  (1 <= Nx)%Z -> Nt <> 0%Z ->
  is_zero (grid_spacing p Nx * grid_spacing p Nx) = false ->
  ftcs_solver p Nx Nt out =
    (Ok (linspace_points zero (Params.L p) (Nx + 1),
         field_after p Nx Nt (Z.to_nat Nt)),
     out ++ (if stability_ratio p Nx Nt >? stability_limit
             then [WarnUnstable (stability_ratio p Nx Nt); AdviceReduce]
             else [])).
Proof.
  intros HNx HNt Hz.
  unfold ftcs_solver, truediv_int, truediv, np_linspace, np_zeros, setitem0.
  destruct (Z.eqb_spec Nx 0) as [?|_]; [lia|].
  destruct (Z.eqb_spec Nt 0) as [?|_]; [lia|].
  destruct (Z.ltb_spec (Nx + 1) 0) as [?|_]; [lia|].
  unfold bind at 1. unfold ret at 1.
  unfold bind at 1. unfold ret at 1.
  unfold bind at 1. unfold ret at 1.
  fold (grid_spacing p Nx). fold (time_increment p Nt).
  rewrite Hz.
  unfold bind at 1. unfold ret at 1.
  fold (stability_ratio p Nx Nt).
  assert (E : Z.to_nat (Nx + 1) = S (Z.to_nat Nx)) by lia.
  unfold field_after.
  destruct (stability_ratio p Nx Nt >? stability_limit);
    cbv [bind ret print]; rewrite fill_repeat, E;
    change (repeat zero (S (Z.to_nat Nx))) with (zero :: repeat zero (Z.to_nat Nx));
    cbv [set_first]; cbv beta iota;
    destruct (Nat.iter (Z.to_nat Nt) _ _) as [c1 c2]; simpl;
    rewrite ?app_nil_r, <- ?app_assoc; reflexivity.
Qed.

End SolverFacts.

(* ================================================================== *)
(** ** The solver in exact arithmetic *)

Local Open Scope R_scope.

Lemma Req0b_false x : x <> 0 -> Req0b x = false.
Proof. intros Hx. unfold Req0b. now destruct (Req_dec_T x 0). Qed.

Lemma Req0b_true x : x = 0 -> Req0b x = true.
Proof. intros Hx. unfold Req0b. now destruct (Req_dec_T x 0). Qed.

Lemma Rgtb_true x y : y < x -> Rgtb x y = true.
Proof. intros Hx. unfold Rgtb. now destruct (Rlt_dec y x). Qed.

Lemma Rgtb_false x y : x <= y -> Rgtb x y = false.
Proof. intros Hx. unfold Rgtb. destruct (Rlt_dec y x); [lra | reflexivity]. Qed.

Lemma stability_limit_half : stability_limit (T := R) = 1 / 2.
Proof. unfold stability_limit, dec_lit. arith_R. lra. Qed.

Lemma IZR_pos_neq n : (1 <= n)%Z -> 0 < IZR n.
Proof. intros Hn. apply IZR_lt. lia. Qed.

Lemma grid_spacing_square_nonzero (p : Params.t R) Nx :
  Params.L p <> 0 -> Nx <> 0%Z ->
  is_zero (grid_spacing p Nx * grid_spacing p Nx)%A = false.
Proof.
  intros HL HN. unfold grid_spacing. arith_R. apply Req0b_false.
  assert (IZR Nx <> 0) by (now apply not_0_IZR).
  assert (Params.L p / IZR Nx <> 0).
  { unfold Rdiv. apply Rmult_integral_contrapositive_currified; auto.
    now apply Rinv_neq_0_compat. }
  now apply Rmult_integral_contrapositive_currified.
Qed.

(** The stability ratio is [D * dt / dx^2]. *)
Lemma stability_ratio_formula (p : Params.t R) Nx Nt :
  stability_ratio p Nx Nt =
    Params.D p * (Params.T_final p / IZR Nt) / (Params.L p / IZR Nx) ^ 2.
Proof.
  unfold stability_ratio, time_increment, grid_spacing. arith_R.
  now rewrite <- Rsqr_pow2.
Qed.

Lemma ftcs_solver_returns (p : Params.t R) Nx Nt out :
  Params.L p <> 0 -> (1 <= Nx)%Z -> Nt <> 0%Z ->
  ftcs_solver p Nx Nt out =
    (Ok (linspace_points 0 (Params.L p) (Nx + 1), field_after p Nx Nt (Z.to_nat Nt)),
     out ++ (if Rgtb (stability_ratio p Nx Nt) (1 / 2)
             then [WarnUnstable (stability_ratio p Nx Nt); AdviceReduce]
             else [])).
Proof.
  intros HL HNx HNt.
  rewrite ftcs_solver_run; auto.
  - now rewrite stability_limit_half.
  - apply grid_spacing_square_nonzero; auto. lia.
Qed.

(** The grid of the solver: [Nx + 1] nodes, node [i] at [i * dx]. *)
Lemma linspace_grid (L : R) Nx :
  L <> 0 -> (1 <= Nx)%Z ->
  length (linspace_points 0 L (Nx + 1)) = Z.to_nat (Nx + 1) /\
  forall i, (i <= Z.to_nat Nx)%nat ->
    nth i (linspace_points 0 L (Nx + 1)) 0 = INR i * (L / IZR Nx).
Proof.
  intros HL HN. unfold linspace_points. arith_R.
  assert (HNx : 0 < IZR Nx) by now apply IZR_pos_neq.
  replace (Nx + 1 - 1)%Z with Nx by lia.
  destruct (Z.gtb_spec Nx 0) as [_|?]; [|lia].
  destruct (Z.gtb_spec (Nx + 1) 1) as [_|?]; [|lia].
  rewrite Req0b_false.
  2:{ unfold Rdiv. apply Rmult_integral_contrapositive_currified; [lra|].
      apply Rinv_neq_0_compat. lra. }
  set (ys := map _ _).
  assert (Lys : length ys = Z.to_nat (Nx + 1)).
  { unfold ys. now rewrite length_map, length_seq. }
  split.
  - rewrite length_app, removelast_length, Lys. simpl. lia.
  - intros i Hi.
    destruct (Nat.eq_dec i (Z.to_nat Nx)) as [->|Hne].
    + rewrite app_nth2; rewrite removelast_length, Lys;
        replace (Z.to_nat (Nx + 1) - 1)%nat with (Z.to_nat Nx) by lia; [|lia].
      rewrite Nat.sub_diag. simpl.
      rewrite INR_IZR_INZ, Z2Nat.id by lia. field. lra.
    + rewrite app_nth1 by (rewrite removelast_length, Lys; lia).
      rewrite nth_removelast by (rewrite Lys; lia).
      unfold ys.
      rewrite (nth_indep _ 0 ((fun j => IZR (Z.of_nat j) * ((L - 0) / IZR Nx) + 0) 0%nat))
        by (rewrite length_map, length_seq; lia).
      rewrite (map_nth (fun j => IZR (Z.of_nat j) * ((L - 0) / IZR Nx) + 0)).
      rewrite seq_nth by lia. simpl Nat.add.
      rewrite INR_IZR_INZ. field. lra.
Qed.

(** C1.  For a parameter set with [L, D, T_final > 0] and [k >= 0], [Nx >= 2]
    and [Nt >= 1], the solver starts from the zero field with node 0 set to
    [c0]; each pass computes every interior node [1 <= i <= Nx - 1] as
    [cur[i] + alpha * (cur[i+1] - 2*cur[i] + cur[i-1]) - k*dt*cur[i]] from the
    field [cur] of the previous level only, with [dx = L/Nx], [dt = T_final/Nt]
    and [alpha = D*dt/dx^2]; and the solver returns the field after pass [Nt]
    together with the grid of the [Nx + 1] nodes [i * dx]. *)
Theorem ftcs_solver_explicit_update (p : Params.t R) (Nx Nt : Z) out :
  0 < Params.L p -> 0 < Params.D p -> 0 < Params.T_final p -> 0 <= Params.k p ->
  (2 <= Nx)%Z -> (1 <= Nt)%Z ->
  let dx := Params.L p / IZR Nx in
  let dt := Params.T_final p / IZR Nt in
  let alpha := Params.D p * dt / dx ^ 2 in
  let c := field_after p Nx Nt in
  c 0%nat = Params.c0 p :: repeat 0 (Z.to_nat Nx) /\
  (forall n i, (n < Z.to_nat Nt)%nat -> (1 <= i <= Z.to_nat Nx - 1)%nat ->
     nth i (c (S n)) 0 =
       nth i (c n) 0
       + alpha * (nth (i + 1) (c n) 0 - 2 * nth i (c n) 0 + nth (i - 1) (c n) 0)
       - Params.k p * dt * nth i (c n) 0) /\
  exists x w,
    ftcs_solver p Nx Nt out = (Ok (x, c (Z.to_nat Nt)), out ++ w) /\
    length x = Z.to_nat (Nx + 1) /\
    forall i, (i <= Z.to_nat Nx)%nat -> nth i x 0 = INR i * dx.
Proof.
  intros HL HD HT Hk HNx HNt dx dt alpha c. subst c.
  split; [exact (field_after_0 p Nx Nt ltac:(lia))|].
  split.
  - intros n i Hn Hi.
    rewrite field_after_S by lia.
    destruct i as [|i]; [lia|]. cbn [nth].
    assert (Len := field_after_length p Nx Nt n ltac:(lia)).
    rewrite app_nth1 by (rewrite interior_update_length, Len; lia).
    rewrite nth_interior_update by (rewrite Len; lia).
    replace (S i + 1)%nat with (S (S i)) by lia.
    replace (S i - 1)%nat with i by lia.
    rewrite stability_ratio_formula. unfold time_increment. arith_R.
    reflexivity.
  - eexists _, _. split; [apply ftcs_solver_returns; lra || lia|].
    apply linspace_grid; lra || lia.
Qed.

Lemma params_fields :
  Params.L (params (T := R)) = 5 / 1000 /\
  Params.D (params (T := R)) = 1 / 10000000000 /\
  Params.k (params (T := R)) = 2 / 10000 /\
  Params.c0 (params (T := R)) = 1 /\
  Params.T_final (params (T := R)) = 7200.
Proof.
  unfold params, dec_lit. cbn [Params.L Params.D Params.k Params.c0 Params.T_final].
  arith_R. change (3600 * 2)%Z with 7200%Z. repeat split; lra.
Qed.

Ltac params_R :=
  destruct params_fields as (EL & ED & Ek & Ec0 & ET);
  cbn [params_k0 Params.L Params.D Params.k Params.c0 Params.T_final];
  rewrite ?EL, ?ED, ?Ek, ?Ec0, ?ET; try lra.

Lemma ftcs_solver_explicit_update_witness :
  exists x w,
    ftcs_solver (T := R) params 20 800 [] = (Ok (x, field_after params 20 800 800), [] ++ w) /\
    length x = 21%nat.
Proof.
  assert (HL : 0 < Params.L (params (T := R))) by params_R.
  assert (HD : 0 < Params.D (params (T := R))) by params_R.
  assert (HT : 0 < Params.T_final (params (T := R))) by params_R.
  assert (Hk : 0 <= Params.k (params (T := R))) by params_R.
  destruct (ftcs_solver_explicit_update params 20 800 [] HL HD HT Hk
              ltac:(lia) ltac:(lia)) as (_ & _ & x & w & E & Lx & _).
  exists x, w. split; [exact E | exact Lx].
Defined.

(** The stability ratio of a valid run is positive and the decay factor is
    not negative. *)
Lemma stability_ratio_pos (p : Params.t R) Nx Nt :
  valid_params p -> (1 <= Nx)%Z -> (1 <= Nt)%Z ->
  0 < stability_ratio p Nx Nt /\ 0 <= Params.k p * time_increment p Nt.
Proof.
  intros (HL & HD & Hk & Hc & HT) HNx HNt.
  assert (0 < IZR Nx) by now apply IZR_pos_neq.
  assert (0 < IZR Nt) by now apply IZR_pos_neq.
  unfold stability_ratio, time_increment, grid_spacing. arith_R.
  assert (0 < Params.T_final p / IZR Nt) by now apply Rdiv_lt_0_compat.
  assert (0 < Params.L p / IZR Nx) by now apply Rdiv_lt_0_compat.
  split.
  - apply Rdiv_lt_0_compat; now apply Rmult_lt_0_compat.
  - apply Rmult_le_pos; lra.
Qed.

(** C2.  For a valid parameter set, [Nx >= 2] and [Nt >= 1], the field has
    [Nx + 1] entries after every pass (before the first one and as returned
    included), its first entry is [c0] and its last entry is [0]; a pass
    writes the two boundary values itself, around the interior update. *)
Theorem ftcs_solver_boundary_invariant (p : Params.t R) (Nx Nt : Z) out :
  valid_params p -> (2 <= Nx)%Z -> (1 <= Nt)%Z ->
  let c := field_after p Nx Nt in
  (forall n,
     length (c n) = Z.to_nat (Nx + 1) /\
     nth 0 (c n) 0 = Params.c0 p /\
     nth (Z.to_nat Nx) (c n) 0 = 0) /\
  (forall n,
     c (S n) =
       Params.c0 p
         :: interior_update (stability_ratio p Nx Nt) (Params.k p)
              (time_increment p Nt) (c n)
         ++ [0]) /\
  exists x w, ftcs_solver p Nx Nt out = (Ok (x, c (Z.to_nat Nt)), out ++ w).
Proof.
  intros (HL & HD & Hk & Hc & HT) HNx HNt c. subst c.
  split; [|split].
  - intros n. split; [apply field_after_length; lia|].
    destruct n as [|n].
    + rewrite (field_after_0 p Nx Nt) by lia. split; [reflexivity|].
      replace (Z.to_nat Nx) with (S (Z.to_nat (Nx - 1))) at 1 by lia.
      cbn [nth]. arith_R. apply nth_repeat.
    + rewrite field_after_S by lia. split; [reflexivity|].
      assert (Len := field_after_length p Nx Nt n ltac:(lia)).
      replace (Z.to_nat Nx) with (S (Z.to_nat (Nx - 1))) by lia.
      cbn [nth].
      rewrite app_nth2; rewrite interior_update_length, Len;
        replace (Z.to_nat (Nx + 1) - 2)%nat with (Z.to_nat (Nx - 1)) by lia; [|lia].
      now rewrite Nat.sub_diag.
  - intros n. exact (field_after_S p Nx Nt n ltac:(lia)).
  - eexists _, _. apply ftcs_solver_returns; lra || lia.
Qed.

Lemma params_valid : valid_params params.
Proof. unfold valid_params. params_R. Defined.

Lemma ftcs_solver_boundary_invariant_witness :
  valid_params params /\
  length (field_after (T := R) params 50 200 200) = 51%nat /\
  nth 0 (field_after (T := R) params 50 200 200) 0 = Params.c0 params /\
  nth 50 (field_after (T := R) params 50 200 200) 0 = 0.
Proof.
  split; [exact params_valid|].
  destruct (ftcs_solver_boundary_invariant params 50 200 [] params_valid
              ltac:(lia) ltac:(lia)) as (Hinv & _ & _).
  exact (Hinv 200%nat).
Defined.

(** C3.  The two warning lines are printed if and only if the stability
    ratio [alpha = D*dt/dx^2] is strictly greater than [0.5] (at exactly
    [0.5] nothing is printed), and in both cases the run goes on and returns
    the same grid and final field. *)
Theorem ftcs_solver_stability_warning (p : Params.t R) (Nx Nt : Z) out :
  Params.L p <> 0 -> (1 <= Nx)%Z -> Nt <> 0%Z ->
  let alpha := Params.D p * (Params.T_final p / IZR Nt) / (Params.L p / IZR Nx) ^ 2 in
  let result :=
    Ok (linspace_points 0 (Params.L p) (Nx + 1), field_after p Nx Nt (Z.to_nat Nt)) in
  (1 / 2 < alpha ->
     ftcs_solver p Nx Nt out = (result, out ++ [WarnUnstable alpha; AdviceReduce])) /\
  (alpha <= 1 / 2 -> ftcs_solver p Nx Nt out = (result, out)) /\
  (In AdviceReduce (snd (ftcs_solver p Nx Nt [])) <-> 1 / 2 < alpha).
Proof.
  intros HL HNx HNt alpha result. subst alpha result.
  rewrite <- stability_ratio_formula.
  rewrite !ftcs_solver_returns by assumption.
  split; [|split].
  - intros Ha. now rewrite Rgtb_true.
  - intros Ha. rewrite Rgtb_false by assumption. now rewrite app_nil_r.
  - cbn [snd app].
    destruct (Rle_or_lt (stability_ratio p Nx Nt) (1 / 2)) as [Ha|Ha].
    + rewrite Rgtb_false by assumption. split; [intros []|lra].
    + rewrite Rgtb_true by assumption. split; [auto|]. intros _. right. now left.
Qed.

(** A run exactly at the limit: [alpha = 1 * (1/2) / 1^2 = 0.5]. *)
Lemma ftcs_solver_stability_warning_witness :
  ftcs_solver (T := R)
    {| Params.L := 1; Params.D := 1; Params.k := 0; Params.c0 := 1; Params.T_final := 1 |}
    1 2 [] =
  (Ok (linspace_points 0 1 2,
       field_after
         {| Params.L := 1; Params.D := 1; Params.k := 0; Params.c0 := 1;
            Params.T_final := 1 |} 1 2 2),
   []).
Proof.
  refine (proj1 (proj2 (ftcs_solver_stability_warning
            {| Params.L := 1; Params.D := 1; Params.k := 0; Params.c0 := 1;
               Params.T_final := 1 |} 1 2 [] _ _ _)) _);
    cbn [Params.L Params.D Params.T_final]; try lra; try lia.
Defined.

(** One stencil value under the condition [2*alpha + k*dt <= 1]. *)
Lemma stencil_in_range (alpha kdt c0 a b c : R) :
  0 <= alpha -> 0 <= kdt -> 2 * alpha + kdt <= 1 ->
  0 <= a <= c0 -> 0 <= b <= c0 -> 0 <= c <= c0 ->
  0 <= a + alpha * (b - 2 * a + c) - kdt * a <= c0.
Proof.
  intros Ha Hk Hs [a0 a1] [b0 b1] [c0' c1].
  assert (E : a + alpha * (b - 2 * a + c) - kdt * a
              = (1 - 2 * alpha - kdt) * a + alpha * b + alpha * c) by ring.
  rewrite E.
  assert (0 <= (1 - 2 * alpha - kdt) * a) by (apply Rmult_le_pos; lra).
  assert (0 <= alpha * b) by (apply Rmult_le_pos; lra).
  assert (0 <= alpha * c) by (apply Rmult_le_pos; lra).
  assert (0 <= (1 - 2 * alpha - kdt) * (c0 - a)) by (apply Rmult_le_pos; lra).
  assert (0 <= alpha * (c0 - b)) by (apply Rmult_le_pos; lra).
  assert (0 <= alpha * (c0 - c)) by (apply Rmult_le_pos; lra).
  assert (0 <= kdt * c0) by (apply Rmult_le_pos; lra).
  split; nra.
Qed.

Lemma interior_update_in_range (alpha k dt c0 : R) (cur : list R) :
  0 <= alpha -> 0 <= k * dt -> 2 * alpha + k * dt <= 1 ->
  Forall (fun v => 0 <= v <= c0) cur ->
  Forall (fun v => 0 <= v <= c0) (interior_update alpha k dt cur).
Proof.
  intros Ha Hk Hs Hcur.
  apply Forall_nth. intros i d Hi.
  rewrite interior_update_length in Hi.
  rewrite (nth_indep _ d 0) by (rewrite interior_update_length; lia).
  rewrite nth_interior_update by lia. arith_R.
  assert (Hn : forall j, (j < length cur)%nat -> 0 <= nth j cur 0 <= c0).
  { intros j Hj.
    exact (proj1 (Forall_nth (fun v => 0 <= v <= c0) cur) Hcur j 0 Hj). }
  apply stencil_in_range; auto; apply Hn; lia.
Qed.

(** C9.  Discrete maximum principle: for a valid parameter set, [Nx >= 2]
    and [Nt >= 1] with [2*alpha + k*dt <= 1], the coefficient
    [1 - 2*alpha - k*dt] is not negative and every entry of the field lies in
    [[0, c0]] after every pass, the returned field included. *)
Theorem ftcs_solver_maximum_principle (p : Params.t R) (Nx Nt : Z) out :
  valid_params p -> (2 <= Nx)%Z -> (1 <= Nt)%Z ->
  let dt := Params.T_final p / IZR Nt in
  let alpha := Params.D p * dt / (Params.L p / IZR Nx) ^ 2 in
  2 * alpha + Params.k p * dt <= 1 ->
  0 <= 1 - 2 * alpha - Params.k p * dt /\
  (forall n, Forall (fun v => 0 <= v <= Params.c0 p) (field_after p Nx Nt n)) /\
  exists x c w,
    ftcs_solver p Nx Nt out = (Ok (x, c), out ++ w) /\
    Forall (fun v => 0 <= v <= Params.c0 p) c.
Proof.
  intros Hv HNx HNt dt alpha Hs. subst dt alpha.
  rewrite <- stability_ratio_formula in *.
  change (Params.T_final p / IZR Nt) with (time_increment p Nt) in *.
  destruct (stability_ratio_pos p Nx Nt Hv ltac:(lia) HNt) as [Ha Hk].
  destruct Hv as (HL & HD & Hk0 & Hc & HT).
  assert (Hall : forall n,
            Forall (fun v => 0 <= v <= Params.c0 p) (field_after p Nx Nt n)).
  { induction n as [|n IH].
    - rewrite (field_after_0 p Nx Nt) by lia.
      constructor; [lra|]. apply Forall_forall. intros v Hin.
      apply repeat_spec in Hin. subst v. arith_R. lra.
    - rewrite field_after_S by lia.
      constructor; [lra|]. apply Forall_app. split.
      + apply interior_update_in_range; auto. lra.
      + constructor; [arith_R; lra | constructor]. }
  split; [lra|]. split; [exact Hall|].
  eexists _, _, _. split; [apply ftcs_solver_returns; lra || lia|].
  apply Hall.
Qed.

(** The quadratic coupling of the step count cancels the node count. *)
Lemma stability_ratio_quadratic_coupling (p : Params.t R) (N : Z) :
  Params.L p <> 0 -> N <> 0%Z ->
  stability_ratio p N (2 * N ^ 2) =
    Params.D p * Params.T_final p / (2 * Params.L p ^ 2).
Proof.
  intros HL HN. rewrite stability_ratio_formula.
  rewrite Z.pow_2_r, !mult_IZR.
  assert (IZR N <> 0) by now apply not_0_IZR.
  field. auto.
Qed.

Lemma grids_nonzero N : In N grids -> N <> 0%Z.
Proof. unfold grids. simpl. intros H; repeat destruct H as [<-|H]; try lia; easy. Qed.

(** C6.  With [Nt = 2*N^2] the stability ratio [D*(T_final/Nt)/(L/N)^2]
    equals [D*T_final/(2*L^2)] for every node count [N] of the list: one
    constant for all resolutions, which is [0.0144 <= 0.5] for the reference
    parameters. *)
Theorem convergence_study_constant_alpha (p : Params.t R) (N : Z) :
  0 < Params.L p -> In N grids ->
  let alpha (q : Params.t R) :=
    Params.D q * (Params.T_final q / IZR (2 * N ^ 2)) / (Params.L q / IZR N) ^ 2 in
  stability_ratio p N (2 * N ^ 2) = alpha p /\
  alpha p = Params.D p * Params.T_final p / (2 * Params.L p ^ 2) /\
  alpha params = 144 / 10000 /\
  alpha params <= 1 / 2.
Proof.
  intros HL HN alpha. subst alpha. cbv beta.
  apply grids_nonzero in HN.
  rewrite <- !stability_ratio_formula.
  split; [reflexivity|].
  split; [apply stability_ratio_quadratic_coupling; auto; lra|].
  assert (E : stability_ratio params N (2 * N ^ 2) = 144 / 10000).
  { rewrite stability_ratio_quadratic_coupling; auto; params_R. }
  rewrite E. split; lra.
Qed.

Lemma convergence_study_constant_alpha_witness :
  stability_ratio (T := R) params 320 (2 * 320 ^ 2) = 144 / 10000.
Proof.
  assert (HL : 0 < Params.L (params (T := R))) by params_R.
  destruct (convergence_study_constant_alpha params 320 HL
              ltac:(unfold grids; simpl; tauto)) as (E1 & _ & E3 & _).
  cbv beta in E1, E3. rewrite E1. exact E3.
Defined.

(* ================================================================== *)
(** ** The RMS error *)

Lemma squared_differences (c : list R) (a : list npfloat) :
  vmul (vsub (asarray c) a) (vsub (asarray c) a) = map sq_diff (combine c a).
Proof.
  revert a. induction c as [|x c IH]; intros [|y a]; simpl; auto.
  unfold vmul, vsub in *. simpl. now rewrite IH.
Qed.

Lemma rms_error_combine (c : list R) (a : list npfloat) :
  rms_error c a =
    np_sqrt (np_div (np_sum (map sq_diff (combine c a)))
                    (Some (INR (length (combine c a))))).
Proof.
  unfold rms_error, np_mean. rewrite squared_differences.
  now rewrite length_map.
Qed.

Lemma np_sum_permutation (u v : list npfloat) :
  Permutation u v -> np_sum u = np_sum v.
Proof.
  induction 1 as [|x u v _ IH|x y u|u v w _ IH1 _ IH2].
  - reflexivity.
  - unfold np_sum in *. cbn [fold_right]. now rewrite IH.
  - unfold np_sum. cbn [fold_right].
    set (s := fold_right add zero u).
    destruct x as [x|], y as [y|], s as [s|]; simpl; try reflexivity.
    f_equal. ring.
  - congruence.
Qed.

(** The sum of the squared differences is finite only against a finite
    reference; it is then a sum of squares, which vanishes only when the two
    arrays agree. *)
Lemma np_sum_squares (c : list R) (a : list npfloat) s :
  length c = length a ->
  np_sum (map sq_diff (combine c a)) = Some s ->
  exists r, a = asarray r /\
    s = fold_right Rplus 0 (map2 (fun x y => (x - y) ^ 2) c r) /\
    0 <= s /\ (s = 0 -> c = r).
Proof.
  revert a s. induction c as [|x c IH]; intros [|y a] s Hlen Hs;
    try discriminate.
  - exists []. inversion Hs. repeat split; auto. lra.
  - unfold np_sum in *. cbn [combine map fold_right] in Hs.
    destruct y as [y|]; [|discriminate].
    destruct (fold_right add zero (map sq_diff (combine c a))) as [s'|] eqn:Es;
      [|discriminate].
    simpl in Hlen.
    assert (Hs' : s = (x - y) * (x - y) + s').
    { unfold sq_diff in Hs. cbn in Hs. congruence. }
    clear Hs. subst s.
    destruct (IH a s' ltac:(lia) Es) as (r & -> & E' & Hpos & Hz).
    exists (y :: r). cbn [map2 fold_right]. rewrite <- E'.
    split; [reflexivity|]. split; [ring|].
    pose proof (Rle_0_sqr (x - y)) as Hsq. unfold Rsqr in Hsq.
    split; [lra|]. intros H0.
    assert (Hxy : (x - y) * (x - y) = 0) by lra.
    assert (x = y) by (apply Rmult_integral in Hxy; lra).
    subst y. f_equal. apply Hz. lra.
Qed.

Lemma np_sum_asarray_squares (c r : list R) :
  np_sum (map sq_diff (combine c (asarray r))) =
    Some (fold_right Rplus 0 (map2 (fun x y => (x - y) ^ 2) c r)).
Proof.
  revert r. induction c as [|x c IH]; intros [|y r]; simpl; auto.
  unfold np_sum in *. simpl. rewrite IH. unfold sq_diff. simpl. f_equal. ring.
Qed.

Lemma INR_length_pos {A} (l : list A) : l <> [] -> 0 < INR (length l).
Proof.
  destruct l; [congruence|]. intros _. apply lt_0_INR. simpl. lia.
Qed.

(** C8.  The RMS error is the square root of the mean of the squared
    differences over all nodes; it does not change when one permutation is
    applied to both arrays; and it is [0] if and only if the solver output
    equals the reference output at every node. *)
Theorem rms_error_spec (c_num c_num' : list R) (c_ana c_ana' : list npfloat) :
  length c_num = length c_ana -> c_num <> [] ->
  length c_num' = length c_ana' ->
  Permutation (combine c_num c_ana) (combine c_num' c_ana') ->
  (forall r, c_ana = asarray r ->
     rms_error c_num c_ana =
       Some (sqrt (fold_right Rplus 0 (map2 (fun x y => (x - y) ^ 2) c_num r)
                   / INR (length c_num)))) /\
  rms_error c_num' c_ana' = rms_error c_num c_ana /\
  (rms_error c_num c_ana = Some 0 <-> c_ana = asarray c_num).
Proof.
  intros Hlen Hne Hlen' Hperm.
  assert (Hn : 0 < INR (length c_num)) by now apply INR_length_pos.
  assert (Hcl : length (combine c_num c_ana) = length c_num).
  { rewrite length_combine. lia. }
  assert (Hfin : forall r, c_ana = asarray r ->
            rms_error c_num c_ana =
              Some (sqrt (fold_right Rplus 0 (map2 (fun x y => (x - y) ^ 2) c_num r)
                          / INR (length c_num)))).
  { intros r ->. rewrite rms_error_combine, Hcl, np_sum_asarray_squares.
    unfold np_div. destruct (Req_dec_T (INR (length c_num)) 0) as [E|_]; [lra|].
    unfold np_sqrt.
    destruct (Rlt_dec _ 0) as [Hneg|_]; [|reflexivity].
    exfalso.
    destruct (np_sum_squares c_num (asarray r) _ Hlen (np_sum_asarray_squares c_num r))
      as (_ & _ & _ & Hpos & _).
    assert (0 <= fold_right Rplus 0 (map2 (fun x y => (x - y) ^ 2) c_num r)
                 / INR (length c_num)).
    { apply Rmult_le_pos; [exact Hpos|]. left. now apply Rinv_0_lt_compat. }
    lra. }
  split; [exact Hfin|]. split.
  - rewrite !rms_error_combine.
    rewrite (np_sum_permutation _ _ (Permutation_map sq_diff Hperm)).
    now rewrite (Permutation_length Hperm).
  - split.
    + rewrite rms_error_combine, Hcl. intros H0.
      destruct (np_sum (map sq_diff (combine c_num c_ana))) as [s|] eqn:Es;
        [|discriminate].
      destruct (np_sum_squares _ _ _ Hlen Es) as (r & -> & _ & Hpos & Hz).
      unfold np_div in H0.
      destruct (Req_dec_T (INR (length c_num)) 0) as [E|_]; [lra|].
      unfold np_sqrt in H0. destruct (Rlt_dec _ 0) as [|Hnn]; [discriminate|].
      inversion H0 as [H1].
      assert (Hq : 0 <= s / INR (length c_num)) by lra.
      apply sqrt_eq_0 in H1; [|exact Hq].
      assert (s = 0).
      { unfold Rdiv in H1. apply Rmult_integral in H1. destruct H1 as [|H1]; auto.
        exfalso. apply (Rinv_neq_0_compat (INR (length c_num))); lra. }
      f_equal. symmetry. now apply Hz.
    + intros ->. rewrite (Hfin c_num eq_refl).
      assert (E : fold_right Rplus 0 (map2 (fun x y => (x - y) ^ 2) c_num c_num) = 0).
      { clear. induction c_num as [|x c IH]; cbn [map2 fold_right]; [reflexivity|].
        rewrite IH. ring. }
      rewrite E. unfold Rdiv. rewrite Rmult_0_l, sqrt_0. reflexivity.
Qed.

(** Swapping two nodes of a three-node comparison. *)
Lemma rms_error_spec_witness :
  rms_error [1; 0; 2] (asarray [1; 3; 2]) = rms_error [0; 1; 2] (asarray [3; 1; 2]).
Proof.
  refine (proj1 (proj2 (rms_error_spec [0; 1; 2] [1; 0; 2] (asarray [3; 1; 2])
                          (asarray [1; 3; 2]) eq_refl _ eq_refl _))).
  - discriminate.
  - simpl. apply perm_swap.
Defined.

(* ================================================================== *)
(** ** The reference solution *)

Lemma truediv_R_ok (x y : R) out :
  y <> 0 -> truediv x y out = (Ok (x / y), out).
Proof. intros Hy. unfold truediv. arith_R. now rewrite Req0b_false. Qed.

Lemma np_div_some (a b : R) : b <> 0 -> np_div (Some a) (Some b) = Some (a / b).
Proof. intros Hb. unfold np_div. now destruct (Req_dec_T b 0). Qed.

Lemma np_div_zero (x : npfloat) : np_div x (Some 0) = None.
Proof.
  unfold np_div. destruct x; [|reflexivity].
  destruct (Req_dec_T 0 0); [reflexivity | congruence].
Qed.

Lemma np_sqrt_some (a : R) : 0 <= a -> np_sqrt (Some a) = Some (sqrt a).
Proof. intros Ha. unfold np_sqrt. destruct (Rlt_dec a 0); [lra | reflexivity]. Qed.

Lemma vadd_asarray (u v : list R) :
  vadd (asarray u) (asarray v) = asarray (map2 Rplus u v).
Proof.
  revert v. induction u as [|a u IH]; intros [|b v]; simpl; auto.
  unfold vadd in *. simpl. now rewrite IH.
Qed.

Lemma vadd_map_some (f g : R -> R) (h : R -> npfloat) (xs : list R) :
  (forall x, h x = Some (g x)) ->
  vadd (asarray (map f xs)) (map h xs) = asarray (map (fun x => f x + g x) xs).
Proof.
  intros Hh. induction xs as [|x xs IH]; [reflexivity|].
  unfold vadd, asarray in *. cbn [map map2]. rewrite IH, Hh. reflexivity.
Qed.

Lemma range_ge lo hi n : In n (range lo hi) -> (lo <= n)%Z.
Proof.
  unfold range. rewrite in_map_iff. intros (i & <- & _). lia.
Qed.

Section ReferenceFacts.
Variables (L D k c0 t : R).
Hypothesis HL : 0 < L.
Hypothesis HD : 0 < D.
Hypothesis Hk : 0 <= k.

Lemma denominator_pos n :
  (1 <= n)%Z ->
  0 < (L * L) * (k / D + (IZR n * PI / L) * (IZR n * PI / L)).
Proof.
  intros Hn.
  assert (0 < IZR n) by now apply IZR_pos_neq.
  assert (0 < PI) by apply PI_RGT_0.
  assert (0 < IZR n * PI / L).
  { apply Rdiv_lt_0_compat; [now apply Rmult_lt_0_compat | assumption]. }
  assert (0 <= k / D) by (apply Rmult_le_pos; [lra | left; now apply Rinv_0_lt_compat]).
  apply Rmult_lt_0_compat; [now apply Rmult_lt_0_compat|].
  assert (0 < (IZR n * PI / L) * (IZR n * PI / L)) by now apply Rmult_lt_0_compat.
  lra.
Qed.

(** One mode is added without any exception, and adds [mode_term]. *)
Lemma add_mode_run (xs : list R) (f : R -> R) n out :
  (1 <= n)%Z ->
  add_mode L D k c0 t (asarray xs) n (asarray (map f xs)) out =
    (Ok (asarray (map (fun x => f x + mode_term L D k c0 t n x) xs)), out).
Proof.
  intros Hn. unfold add_mode.
  rewrite (bind_ok _ _ _ _ _ (truediv_R_ok _ L out ltac:(lra))).
  rewrite (bind_ok _ _ _ _ _ (truediv_R_ok _ D out ltac:(lra))).
  pose proof (denominator_pos n Hn) as Hden.
  rewrite (bind_ok _ _ _ _ _ (truediv_R_ok _ _ out (Rgt_not_eq _ _ Hden))).
  unfold ret. f_equal. f_equal.
  unfold asarray at 2. rewrite !map_map.
  apply vadd_map_some. intros x.
  cbn [np_arith mul div np_lift2 np_sin np_exp option_map].
  rewrite np_div_some by lra. reflexivity.
Qed.

(** The loop over the modes adds [transient_sum] to the zero array. *)
Lemma modes_run (xs : list R) (ns : list Z) (f : R -> R) out :
  (forall n, In n ns -> (1 <= n)%Z) ->
  for_each ns (add_mode L D k c0 t (asarray xs)) (asarray (map f xs)) out =
    (Ok (asarray
           (map (fun x => fold_left (fun acc n => acc + mode_term L D k c0 t n x) ns (f x))
                xs)),
     out).
Proof.
  revert f. induction ns as [|n ns IH]; intros f Hns; simpl.
  - reflexivity.
  - rewrite (bind_ok _ _ _ _ _ (add_mode_run xs f n out (Hns n (or_introl eq_refl)))).
    rewrite IH; [reflexivity|]. intros m Hm. apply Hns. now right.
Qed.

End ReferenceFacts.

Lemma vadd_map_asarray (h : R -> npfloat) (g : R -> R) (xs : list R) :
  vadd (map h xs) (asarray (map g xs)) = map (fun x => (h x + Some (g x))%A) xs.
Proof.
  induction xs as [|x xs IH]; [reflexivity|].
  unfold vadd, asarray in *. cbn [map map2]. now rewrite IH.
Qed.

Lemma fill_asarray (xs : list R) :
  fill (asarray xs) zero = asarray (map (fun _ => 0) xs).
Proof. unfold fill, asarray. rewrite !map_map. reflexivity. Qed.

(** On parameters with [L, D > 0] and [k >= 0] the evaluator never raises;
    each value is the steady state of line 22, a numpy quotient, plus the
    finite transient sum. *)
Lemma analytical_concentration_run (p : Params.t R) (x_arr : list R) (t : R)
    (n_terms : Z) out :
  0 < Params.L p -> 0 < Params.D p -> 0 <= Params.k p ->
  analytical_concentration x_arr t p n_terms out =
  (Ok (map (fun x =>
              add
                (np_div
                   (Some (Params.c0 p
                          * sinh (sqrt (Params.k p / Params.D p) * (Params.L p - x))))
                   (Some (sinh (sqrt (Params.k p / Params.D p) * Params.L p))))
                (Some (transient_sum (Params.L p) (Params.D p) (Params.k p)
                         (Params.c0 p) t (range 1 (n_terms + 1)) x)))
           x_arr),
   out).
Proof.
  intros HL HD Hk. unfold analytical_concentration.
  rewrite (bind_ok _ _ _ _ _ (truediv_R_ok _ (Params.D p) out ltac:(lra))).
  assert (HkD : 0 <= Params.k p / Params.D p).
  { apply Rmult_le_pos; [lra | left; now apply Rinv_0_lt_compat]. }
  rewrite np_sqrt_some by assumption.
  rewrite fill_asarray.
  rewrite (bind_ok _ _ _ _ _
             (modes_run (Params.L p) (Params.D p) (Params.k p) (Params.c0 p) t HL HD Hk
                x_arr (range 1 (n_terms + 1)) (fun _ => 0) out
                (fun n Hn => range_ge 1 _ n Hn))).
  unfold ret. f_equal. f_equal.
  unfold steady_state, asarray at 1. rewrite map_map.
  rewrite vadd_map_asarray. apply map_ext. intros x.
  reflexivity.
Qed.

Lemma transient_sum_zero (L D k c0 t : R) (ns : list Z) (x : R) :
  (forall n, mode_term L D k c0 t n x = 0) ->
  transient_sum L D k c0 t ns x = 0.
Proof.
  intros Hz. unfold transient_sum.
  assert (G : forall acc,
            fold_left (fun a n => a + mode_term L D k c0 t n x) ns acc = acc).
  { induction ns as [|n ns IH]; intros acc; simpl; [reflexivity|].
    rewrite IH, Hz. ring. }
  apply G.
Qed.

(** Every mode vanishes at both ends of the slab. *)
Lemma mode_term_source (L D k c0 t : R) (n : Z) : mode_term L D k c0 t n 0 = 0.
Proof.
  unfold mode_term.
  replace (IZR n * PI * 0 / L) with 0 by (unfold Rdiv; ring).
  rewrite sin_0. ring.
Qed.

Lemma mode_term_sink (L D k c0 t : R) (n : Z) :
  L <> 0 -> mode_term L D k c0 t n L = 0.
Proof.
  intros HL. unfold mode_term.
  replace (IZR n * PI * L / L) with (IZR n * PI) by (field; assumption).
  rewrite (sin_eq_0_1 (IZR n * PI)) by (now exists n).
  ring.
Qed.

Lemma sinh_pos x : 0 < x -> 0 < sinh x.
Proof. intros Hx. rewrite <- sinh_0. now apply sinh_lt. Qed.

(** C10.  In exact arithmetic, for every parameter set with [k > 0], every
    time [t >= 0] and every truncation order [n_terms >= 1], the reference
    evaluator returns exactly [c0] at a coordinate [x = 0] and exactly [0]
    at a coordinate [x = L]. *)
Theorem analytical_concentration_boundary (p : Params.t R) (x_arr : list R) (t : R)
    (n_terms : Z) out :
  valid_params p -> 0 < Params.k p -> 0 <= t -> (1 <= n_terms)%Z ->
  exists c,
    analytical_concentration x_arr t p n_terms out = (Ok c, out) /\
    length c = length x_arr /\
    forall i, (i < length x_arr)%nat ->
      (nth i x_arr 0 = 0 -> nth i c None = Some (Params.c0 p)) /\
      (nth i x_arr 0 = Params.L p -> nth i c None = Some 0).
Proof.
  intros (HL & HD & _ & Hc & _) Hk Ht Hn.
  eexists. split; [apply analytical_concentration_run; lra|].
  split; [apply length_map|].
  intros i Hi.
  set (F := fun x : R => _).
  assert (Hnth : nth i (map F x_arr) None = F (nth i x_arr 0)).
  { rewrite (nth_indep _ None (F 0)) by now rewrite length_map.
    apply map_nth. }
  rewrite Hnth.
  assert (Hg : 0 < sqrt (Params.k p / Params.D p)).
  { apply sqrt_lt_R0. now apply Rdiv_lt_0_compat. }
  assert (Hs : 0 < sinh (sqrt (Params.k p / Params.D p) * Params.L p)).
  { apply sinh_pos. now apply Rmult_lt_0_compat. }
  split; intros ->; unfold F.
  - rewrite np_div_some by lra.
    rewrite transient_sum_zero by (intros; apply mode_term_source).
    rewrite Rminus_0_r. cbn [add np_arith np_lift2]. f_equal. field. lra.
  - rewrite np_div_some by lra.
    rewrite transient_sum_zero by (intros; apply mode_term_sink; lra).
    replace (Params.L p - Params.L p) with 0 by ring.
    rewrite Rmult_0_r, sinh_0. cbn [add np_arith np_lift2]. f_equal.
    unfold Rdiv. ring.
Qed.

Lemma params_L_value : Params.L (params (T := R)) = 5 / 1000.
Proof. exact (proj1 params_fields). Defined.

Lemma analytical_concentration_boundary_witness :
  exists c,
    analytical_concentration [0; 5 / 1000] 7200 params 50 [] = (Ok c, []) /\
    nth 0 c None = Some (Params.c0 params) /\
    nth 1 c None = Some 0.
Proof.
  assert (Hk : 0 < Params.k (params (T := R))) by params_R.
  destruct (analytical_concentration_boundary params [0; 5 / 1000] 7200 50 []
              params_valid Hk ltac:(lra) ltac:(lia)) as (c & E & _ & Hb).
  exists c. split; [exact E|]. split.
  - apply (Hb 0%nat); simpl; [lia | reflexivity].
  - apply (Hb 1%nat); simpl; [lia | symmetry; exact params_L_value].
Defined.

(** Without decay the steady state of line 22 is the quotient [0/0] at every
    coordinate, and so is every value the evaluator returns. *)
Lemma steady_state_no_decay (L D c0 : R) (xs : list R) :
  steady_state L c0 (np_sqrt (Some (0 / D))) (asarray xs) = map (fun _ => None) xs.
Proof.
  unfold steady_state, asarray. rewrite map_map. apply map_ext. intros x.
  replace (0 / D) with 0 by (unfold Rdiv; ring).
  rewrite np_sqrt_some, sqrt_0 by lra.
  cbn [np_arith mul sub div np_lift2 np_sinh option_map].
  rewrite !Rmult_0_l, !sinh_0. apply np_div_zero.
Qed.

Lemma analytical_concentration_no_decay_run (p : Params.t R) (x_arr : list R) (t : R)
    (n_terms : Z) out :
  0 < Params.L p -> 0 < Params.D p -> Params.k p = 0 ->
  analytical_concentration x_arr t p n_terms out = (Ok (map (fun _ => None) x_arr), out).
Proof.
  intros HL HD Hk. rewrite analytical_concentration_run by lra.
  f_equal. f_equal. apply map_ext. intros x.
  rewrite Hk. replace (0 / Params.D p) with 0 by (unfold Rdiv; ring).
  rewrite sqrt_0, !Rmult_0_l, !sinh_0, np_div_zero. reflexivity.
Qed.

(** C5, as the code behaves.  For [k = 0] (and [L, D > 0]) the evaluator has
    no special case: [gamma = 0], the steady state is [c0*sinh(0)/sinh(0)],
    a numpy division of zero by zero, and the evaluator returns, without
    raising, a value that is not finite at every coordinate.  For [k > 0]
    the steady state is the finite hyperbolic profile. *)
Theorem analytical_concentration_no_decay (p : Params.t R) (x_arr : list R) (t : R)
    (n_terms : Z) out :
  0 < Params.L p -> 0 < Params.D p ->
  (Params.k p = 0 ->
     steady_state (Params.L p) (Params.c0 p)
       (np_sqrt (Some (Params.k p / Params.D p))) (asarray x_arr)
       = map (fun _ => None) x_arr /\
     analytical_concentration x_arr t p n_terms out
       = (Ok (map (fun _ => None) x_arr), out)) /\
  (0 < Params.k p ->
     steady_state (Params.L p) (Params.c0 p)
       (np_sqrt (Some (Params.k p / Params.D p))) (asarray x_arr)
       = asarray (map (steady_term (Params.L p) (Params.D p) (Params.k p)
                         (Params.c0 p)) x_arr)).
Proof.
  intros HL HD. split.
  - intros Hk. split.
    + rewrite Hk. apply steady_state_no_decay.
    + now apply analytical_concentration_no_decay_run.
  - intros Hk.
    assert (HkD : 0 < Params.k p / Params.D p) by now apply Rdiv_lt_0_compat.
    unfold steady_state, asarray. rewrite !map_map. apply map_ext. intros x.
    rewrite np_sqrt_some by lra.
    cbn [np_arith mul sub div np_lift2 np_sinh option_map].
    rewrite np_div_some; [reflexivity|].
    apply Rgt_not_eq, sinh_pos, Rmult_lt_0_compat; [now apply sqrt_lt_R0 | lra].
Qed.

Lemma analytical_concentration_no_decay_witness :
  analytical_concentration [0; 25 / 10000; 5 / 1000] 7200 params_k0 50 []
    = (Ok [None; None; None], []).
Proof.
  assert (HL : 0 < Params.L params_k0) by params_R.
  assert (HD : 0 < Params.D params_k0) by params_R.
  exact (proj2 (proj1 (analytical_concentration_no_decay params_k0
                         [0; 25 / 10000; 5 / 1000] 7200 50 [] HL HD) eq_refl)).
Defined.

(** C5, counterexample.  At the middle of the slab, with [k = 0], the
    steady state is not the linear profile [c0*(1 - x/L)]: it is not finite,
    and neither is the value the evaluator returns there. *)
Lemma analytical_concentration_no_decay_counterexample :
  steady_state (Params.L params_k0) (Params.c0 params_k0)
    (np_sqrt (Some (Params.k params_k0 / Params.D params_k0)))
    (asarray [25 / 10000])
    <> asarray [Params.c0 params_k0 * (1 - (25 / 10000) / Params.L params_k0)] /\
  steady_state (Params.L params_k0) (Params.c0 params_k0)
    (np_sqrt (Some (Params.k params_k0 / Params.D params_k0)))
    (asarray [25 / 10000])
    = [None] /\
  analytical_concentration [25 / 10000] (Params.T_final params_k0) params_k0 50 []
    = (Ok [None], []).
Proof.
  assert (HL : 0 < Params.L params_k0) by params_R.
  assert (HD : 0 < Params.D params_k0) by params_R.
  change (Params.k params_k0) with 0.
  rewrite steady_state_no_decay.
  rewrite (analytical_concentration_no_decay_run params_k0 _ _ _ _ HL HD eq_refl).
  repeat split. discriminate.
Qed.

(* ================================================================== *)
(** ** The convergence study *)

Lemma truediv_int_R_ok (x : R) (n : Z) out :
  n <> 0%Z -> truediv_int x n out = (Ok (x / IZR n), out).
Proof.
  intros Hn. unfold truediv_int. destruct (Z.eqb_spec n 0); [contradiction|].
  reflexivity.
Qed.

(** The records gathered while the errors are finite: the loop goes through
    a prefix of resolutions with finite errors and appends one record for
    each of them. *)
Lemma study_loop_finite_prefix (err : Z -> Run R npfloat) (L : R)
    (ef : Z -> R) (wf : Z -> list (message R)) (pre rest : list Z) :
  (forall N, In N pre ->
     N <> 0%Z /\ forall o, err N o = (Ok (Some (ef N)), o ++ wf N)) ->
  forall errors dx_values out,
    study_loop_with err L (pre ++ rest) errors dx_values out =
    study_loop_with err L rest (errors ++ map ef pre)
      (dx_values ++ map (fun N => L / IZR N) pre) (out ++ concat (map wf pre)).
Proof.
  induction pre as [|N pre IH]; intros Hpre errors dx_values out.
  - simpl. now rewrite !app_nil_r.
  - destruct (Hpre N (or_introl eq_refl)) as [HN Herr].
    cbn [app study_loop_with].
    rewrite (bind_ok _ _ _ _ _ (Herr out)).
    rewrite (bind_ok _ _ _ _ _ (truediv_int_R_ok L N _ HN)).
    rewrite IH by (intros M HM; apply Hpre; now right).
    cbn [map concat]. now rewrite <- !app_assoc.
Qed.

(** The loop leaves at the first resolution whose error is not finite. *)
Lemma study_loop_break (err : Z -> Run R npfloat) (L : R) (N : Z) (post : list Z)
    (w : list (message R)) errors dx_values out :
  err N out = (Ok None, out ++ w) ->
  study_loop_with err L (N :: post) errors dx_values out =
    (Ok (errors, dx_values), out ++ w ++ [GridUnstable N]).
Proof.
  intros Herr. cbn [study_loop_with].
  rewrite (bind_ok _ _ _ _ _ Herr).
  unfold bind, print, ret. now rewrite <- app_assoc.
Qed.

(** C7.  If the RMS error of a resolution [N] is not finite, after a prefix
    [pre] of resolutions with finite errors, then no record is added for
    [N], the resolutions [post] after it are not processed (nothing of them
    is in the records or in the output), and the slope fit is run on the
    records of [pre] only, which are all finite. *)
Theorem convergence_study_stops_at_non_finite (err : Z -> Run R npfloat) (L : R)
    (ef : Z -> R) (wf : Z -> list (message R)) (pre : list Z) (N : Z)
    (post : list Z) out :
  (forall N', In N' pre ->
     N' <> 0%Z /\ forall o, err N' o = (Ok (Some (ef N')), o ++ wf N')) ->
  (forall o, err N o = (Ok None, o ++ wf N)) ->
  let errors := map ef pre in
  let dx_values := map (fun N' => L / IZR N') pre in
  let printed :=
    out ++ [RunningStudy] ++ concat (map wf pre) ++ wf N ++ [GridUnstable N] in
  study_loop_with err L (pre ++ N :: post) [] [] (out ++ [RunningStudy]) =
    (Ok (errors, dx_values), printed) /\
  convergence_study_with err L (pre ++ N :: post) out =
    bind (slope_fit errors dx_values)
      (fun '(slope, intercept) =>
         ret {| st_dx_values := dx_values; st_errors := errors;
                st_slope := slope; st_intercept := intercept |})
      printed.
Proof.
  intros Hpre HN errors dx_values printed.
  assert (E : study_loop_with err L (pre ++ N :: post) [] [] (out ++ [RunningStudy]) =
              (Ok (errors, dx_values), printed)).
  { rewrite (study_loop_finite_prefix err L ef wf pre (N :: post) Hpre).
    rewrite (study_loop_break err L N post (wf N) _ _ _ (HN _)).
    subst printed. cbn [app]. now rewrite <- !app_assoc. }
  split; [exact E|].
  unfold convergence_study_with.
  unfold bind at 1. unfold print at 1.
  now rewrite (bind_ok _ _ _ _ _ E).
Qed.

(** Against a reference that is not finite the RMS error is not finite. *)
Lemma rms_error_non_finite (c : list R) (xs : list R) :
  c <> [] -> xs <> [] -> rms_error c (map (fun _ => None) xs) = None.
Proof.
  destruct c as [|a c]; [congruence|]. destruct xs as [|x xs]; [congruence|].
  intros _ _. reflexivity.
Qed.

(** Without decay, every resolution has an RMS error that is not finite. *)
Lemma resolution_error_no_decay (p : Params.t R) (N : Z) out :
  0 < Params.L p -> 0 < Params.D p -> Params.k p = 0 -> (1 <= N)%Z ->
  resolution_error p N out =
    (Ok None,
     out ++ (if Rgtb (stability_ratio p N (2 * N ^ 2)) (1 / 2)
             then [WarnUnstable (stability_ratio p N (2 * N ^ 2)); AdviceReduce]
             else [])).
Proof.
  intros HL HD Hk HN. unfold resolution_error.
  assert (HNt : (2 * N ^ 2)%Z <> 0%Z) by nia.
  rewrite (bind_ok _ _ _ _ _
             (ftcs_solver_returns p N (2 * N ^ 2) out ltac:(lra) HN HNt)).
  rewrite (bind_ok _ _ _ _ _
             (analytical_concentration_no_decay_run p _ (Params.T_final p) 50 _
                HL HD Hk)).
  unfold ret. f_equal. f_equal.
  apply rms_error_non_finite.
  - intros E. apply (f_equal (@length R)) in E.
    rewrite field_after_length in E by lia. simpl in E. lia.
  - intros E. apply (f_equal (@length R)) in E.
    rewrite (proj1 (linspace_grid (Params.L p) N ltac:(lra) HN)) in E.
    simpl in E. lia.
Qed.

Lemma params_k0_ratio N :
  N <> 0%Z -> Rgtb (stability_ratio params_k0 N (2 * N ^ 2)) (1 / 2) = false.
Proof.
  intros HN. apply Rgtb_false.
  rewrite stability_ratio_quadratic_coupling; auto; params_R.
Qed.

Lemma resolution_error_params_k0 (N : Z) out :
  (1 <= N)%Z -> resolution_error params_k0 N out = (Ok None, out ++ []).
Proof.
  intros HN.
  rewrite resolution_error_no_decay; auto; try params_R.
  now rewrite params_k0_ratio by lia.
Qed.

(** Two finite resolutions and a third one that is not, for a synthetic
    error; and the script itself on the parameters without decay, where the
    first resolution already fails. *)
Lemma convergence_study_stops_at_non_finite_witness :
  study_loop_with (fun N => ret (if (N <? 80)%Z then Some 1 else None)) 1
    ([20; 40] ++ 80 :: [160; 320])%Z [] [] [RunningStudy]
    = (Ok ([1; 1], [1 / 20; 1 / 40]), [RunningStudy; GridUnstable 80]) /\
  study_loop params_k0 ([] ++ 20 :: [40; 80; 160; 320])%Z [] [] [RunningStudy]
    = (Ok ([], []), [RunningStudy; GridUnstable 20]).
Proof.
  split.
  - refine (proj1 (convergence_study_stops_at_non_finite
                     (fun N => ret (if (N <? 80)%Z then Some 1 else None)) 1
                     (fun _ => 1) (fun _ => []) [20; 40]%Z 80%Z [160; 320]%Z [] _ _)).
    + intros N' [<-|[<-|[]]]; (split; [lia|]); intros o; unfold ret; simpl;
        now rewrite app_nil_r.
    + intros o. unfold ret. simpl. now rewrite app_nil_r.
  - refine (proj1 (convergence_study_stops_at_non_finite
                     (resolution_error params_k0) (Params.L params_k0)
                     (fun _ => 0) (fun _ => []) [] 20%Z [40; 80; 160; 320]%Z [] _ _)).
    + intros N' [].
    + intros o. apply resolution_error_params_k0. lia.
Defined.

(** The fit of no record at all: numpy rejects the empty array. *)
Lemma slope_fit_no_record out : slope_fit [] [] out = (Raise TypeError, out).
Proof. reflexivity. Qed.

Lemma np_log_some (a : R) : 0 < a -> np_log (Some a) = Some (ln a).
Proof. intros Ha. unfold np_log. destruct (Rlt_dec 0 a); [reflexivity | lra]. Qed.

Lemma ln_neq_0 (a : R) : 0 < a -> a <> 1 -> ln a <> 0.
Proof.
  intros Ha Hne E. apply Hne. apply ln_inv; [assumption | lra|].
  now rewrite ln_1.
Qed.

(** The fit of a single record: one point does not determine a line; numpy
    only warns and returns the line of least norm through the point. *)
Lemma slope_fit_one_record (e dx : R) out :
  0 < e -> 0 < dx -> dx <> 1 ->
  slope_fit [e] [dx] out =
    (Ok (ln e / (2 * ln dx), ln e / 2),
     out ++ [RankWarning; SlopeReport (ln e / (2 * ln dx))]).
Proof.
  intros He Hdx Hne.
  pose proof (ln_neq_0 dx Hdx Hne) as Hln.
  unfold slope_fit. cbn [asarray map].
  rewrite !np_log_some by assumption.
  unfold np_polyfit1. cbn [length Nat.eqb negb all_finite option_map map map2
                            fold_right hd INR].
  rewrite Req0b_true by ring.
  rewrite (Req0b_false (ln dx)) by assumption.
  unfold bind, print, ret.
  replace ((ln e + 0) / 1 / (2 * ln dx)) with (ln e / (2 * ln dx)) by (field; assumption).
  replace ((ln e + 0) / 1 / 2) with (ln e / 2) by field.
  now rewrite <- app_assoc.
Qed.

(** When the first resolution already fails, no record reaches the fit and
    the study ends with the exception of the fit. *)
Lemma convergence_study_no_record (err : Z -> Run R npfloat) (L : R) (N : Z)
    (post : list Z) (w : list (message R)) out :
  (forall o, err N o = (Ok None, o ++ w)) ->
  convergence_study_with err L (N :: post) out =
    (Raise TypeError, out ++ [RunningStudy] ++ w ++ [GridUnstable N]).
Proof.
  intros Herr. unfold convergence_study_with.
  unfold bind at 1. unfold print at 1.
  rewrite (bind_ok _ _ _ _ _
             (study_loop_break err L N post w [] [] _ (Herr _))).
  rewrite (bind_raise _ _ _ _ _ (slope_fit_no_record _)).
  now rewrite <- app_assoc.
Qed.

(** C4, as the code behaves.  The driver never counts its records before the
    fit.  With no finite record (an empty list of resolutions, or a first
    resolution whose error is not finite) the fit raises [TypeError] and the
    study ends with this uncaught exception; with a single record the fit is
    rank deficient: numpy only emits a [RankWarning] and a degenerate slope
    is reported as the convergence slope. *)
Theorem convergence_study_insufficient_records (err : Z -> Run R npfloat) (L : R)
    (N : Z) (post : list Z) (w : list (message R)) out :
  (forall o, err N o = (Ok None, o ++ w)) ->
  convergence_study_with err L [] out = (Raise TypeError, out ++ [RunningStudy]) /\
  convergence_study_with err L (N :: post) out =
    (Raise TypeError, out ++ [RunningStudy] ++ w ++ [GridUnstable N]) /\
  (forall e dx o, 0 < e -> 0 < dx -> dx <> 1 ->
     slope_fit [e] [dx] o =
       (Ok (ln e / (2 * ln dx), ln e / 2),
        o ++ [RankWarning; SlopeReport (ln e / (2 * ln dx))])).
Proof.
  intros Herr. split; [reflexivity|]. split.
  - now apply convergence_study_no_record.
  - intros e dx o. apply slope_fit_one_record.
Qed.

Lemma convergence_study_insufficient_records_witness :
  convergence_study_with (fun _ => ret None) 1 [20; 40]%Z []
    = (Raise TypeError, [RunningStudy; GridUnstable 20]).
Proof.
  refine (proj1 (proj2 (convergence_study_insufficient_records
                          (fun _ => ret None) 1 20%Z [40%Z] [] [] _))).
  intros o. unfold ret. now rewrite app_nil_r.
Defined.

(** C4, counterexample.  On the reference parameters with [k = 0] the RMS
    error of the first resolution is not finite, no record is gathered, and
    the script ends with an uncaught [TypeError]: nothing reports an
    inconclusive study. *)
Lemma convergence_study_insufficient_records_counterexample :
  convergence_study params_k0 grids [] =
    (Raise TypeError, [RunningStudy; GridUnstable 20]).
Proof.
  unfold convergence_study, grids.
  rewrite (convergence_study_no_record (resolution_error params_k0)
             (Params.L params_k0) 20 [40; 80; 160; 320]%Z [] []).
  - reflexivity.
  - intros o. apply resolution_error_params_k0. lia.
Qed.

Lemma ftcs_solver_maximum_principle_witness :
  Forall (fun v => 0 <= v <= Params.c0 params) (field_after (T := R) params 50 200 200).
Proof.
  assert (Hs : 2 * (Params.D params * (Params.T_final params / IZR 200)
                    / (Params.L params / IZR 50) ^ 2)
               + Params.k params * (Params.T_final params / IZR 200) <= 1)
    by params_R.
  destruct (ftcs_solver_maximum_principle params 50 200 [] params_valid
              ltac:(lia) ltac:(lia) Hs) as (_ & Hall & _).
  exact (Hall 200%nat).
Defined.

(** Each resolution of the study compares two arrays of [N + 1] nodes. *)
Lemma resolution_error_shape (p : Params.t R) (N : Z) out :
  0 < Params.L p -> 0 < Params.D p -> 0 <= Params.k p -> (1 <= N)%Z ->
  exists c a w,
    resolution_error p N out = (Ok (rms_error c a), out ++ w) /\
    length c = Z.to_nat (N + 1) /\ length a = Z.to_nat (N + 1).
Proof.
  intros HL HD Hk HN. unfold resolution_error.
  assert (HNt : (2 * N ^ 2)%Z <> 0%Z) by nia.
  rewrite (bind_ok _ _ _ _ _
             (ftcs_solver_returns p N (2 * N ^ 2) out ltac:(lra) HN HNt)).
  rewrite (bind_ok _ _ _ _ _
             (analytical_concentration_run p _ (Params.T_final p) 50 _ HL HD Hk)).
  eexists _, _, _. split; [reflexivity|]. split.
  - apply field_after_length. lia.
  - rewrite length_map. apply linspace_grid; [lra | assumption].
Qed.

(* ================================================================== *)
(** ** Runs on rationals *)

(** Two passes on three nodes: [alpha = 1/8], the middle node goes from [0]
    to [1/8] and then to [1/8 + (1/8)*(0 - 2/8 + 1) - (1/2)*(1/8) = 5/32]. *)
Example ftcs_solver_two_passes :
  match ftcs_solver small_params 2 2 [] with
  | (Ok (x, c), out) => (map Qred x, map Qred c, out)
  | (Raise _, _) => ([], [], [])
  end = ([0; 1 # 2; 1]%Q, [1; 5 # 32; 0]%Q, []).
Proof. vm_compute. reflexivity. Qed.

(** An unstable run: [alpha = 18 > 0.5] is reported and the field is still
    returned. *)
Example ftcs_solver_unstable_pass :
  match ftcs_solver fast_params 3 1 [] with
  | (Ok (x, c), out) => (map Qred x, map Qred c, out)
  | (Raise _, _) => ([], [], [])
  end = ([0; 1 # 3; 2 # 3; 1]%Q, [3; 54; 0; 0]%Q, [WarnUnstable 18%Q; AdviceReduce]).
Proof. vm_compute. reflexivity. Qed.

(** Node or step counts outside the contract. *)
Example ftcs_solver_no_node : fst (ftcs_solver small_params 0 2 []) = Raise ZeroDivisionError.
Proof. reflexivity. Qed.

Example ftcs_solver_no_step : fst (ftcs_solver small_params 2 0 []) = Raise ZeroDivisionError.
Proof. reflexivity. Qed.

Example ftcs_solver_empty_grid : fst (ftcs_solver small_params (-1) 2 []) = Raise IndexError.
Proof. vm_compute. reflexivity. Qed.

Example ftcs_solver_negative_grid : fst (ftcs_solver small_params (-2) 2 []) = Raise ValueError.
Proof. vm_compute. reflexivity. Qed.

(* ================================================================== *)
(** * Further properties *)

(** ** The solver outside its contract *)

(** On any carrier: a zero node count or a zero step count is a division by
    zero of line 9 or 10, a node count below [-1] is refused by
    [np.linspace]; in both cases nothing has been printed. *)
Theorem ftcs_solver_rejects_counts {T : Type} `{Arith T} (p : Params.t T)
    (Nx Nt : Z) out :
  (Nx = 0%Z \/ Nt = 0%Z -> ftcs_solver p Nx Nt out = (Raise ZeroDivisionError, out)) /\
  ((Nx <= -2)%Z -> Nt <> 0%Z -> ftcs_solver p Nx Nt out = (Raise ValueError, out)).
Proof.
  split.
  - intros Hz. unfold ftcs_solver, truediv_int.
    destruct (Z.eqb_spec Nx 0) as [_|HNx]; [reflexivity|].
    destruct (Z.eqb_spec Nt 0) as [_|HNt]; [reflexivity | lia].
  - intros HNx HNt. unfold ftcs_solver, truediv_int, np_linspace.
    destruct (Z.eqb_spec Nx 0) as [?|_]; [lia|].
    destruct (Z.eqb_spec Nt 0) as [?|_]; [lia|].
    destruct (Z.ltb_spec (Nx + 1) 0) as [_|?]; [reflexivity | lia].
Qed.

Lemma ftcs_solver_rejects_counts_witness :
  ftcs_solver small_params 0 7 [] = (Raise ZeroDivisionError, []) /\
  ftcs_solver small_params (-3) 7 [] = (Raise ValueError, []).
Proof.
  split.
  - apply (proj1 (ftcs_solver_rejects_counts small_params 0 7 [])). now left.
  - apply (proj2 (ftcs_solver_rejects_counts small_params (-3) 7 [])); lia.
Defined.

(** In exact arithmetic the solver returns a result exactly when [Nx >= 1],
    [Nt <> 0] and [L <> 0]; every other input ends in an exception. *)
Theorem ftcs_solver_returns_iff (p : Params.t R) (Nx Nt : Z) out :
  (exists r out', ftcs_solver p Nx Nt out = (Ok r, out')) <->
  ((1 <= Nx)%Z /\ Nt <> 0%Z /\ Params.L p <> 0).
Proof.
  split.
  - intros (r & out' & E).
    unfold ftcs_solver, truediv_int, truediv, np_linspace, np_zeros, setitem0 in E.
    destruct (Z.eqb_spec Nx 0) as [?|HNx]; [discriminate|].
    destruct (Z.eqb_spec Nt 0) as [?|HNt]; [discriminate|].
    destruct (Z.ltb_spec (Nx + 1) 0) as [?|Hlow]; [discriminate|].
    cbv [bind ret raise print] in E. arith_R.
    destruct (Req_dec_T (Params.L p) 0) as [HL|HL].
    { rewrite Req0b_true in E by (rewrite HL; unfold Rdiv; ring). discriminate. }
    split; [|split; assumption].
    destruct (Z.eq_dec Nx (-1)) as [->|?]; [|lia].
    exfalso. simpl in E.
    destruct (Req0b _); [discriminate|].
    destruct (Rgtb _ _); discriminate.
  - intros (HNx & HNt & HL). eexists _, _. now apply ftcs_solver_returns.
Qed.

Lemma ftcs_solver_returns_iff_witness :
  exists r out', ftcs_solver (T := R) params 50 200 [] = (Ok r, out').
Proof.
  apply (proj2 (ftcs_solver_returns_iff params 50 200 [])).
  split; [lia|]. split; [lia|]. params_R.
Defined.

(** A node count of [-1] gives empty arrays, and the source node cannot be
    written: [IndexError]; a zero length is a division by zero of line 14. *)
Theorem ftcs_solver_rejects_geometry (p : Params.t R) (Nx Nt : Z) out :
  Nt <> 0%Z ->
  (Nx = (-1)%Z -> Params.L p <> 0 ->
     fst (ftcs_solver p Nx Nt out) = Raise IndexError) /\
  (Nx <> 0%Z -> (-1 <= Nx)%Z -> Params.L p = 0 ->
     ftcs_solver p Nx Nt out = (Raise ZeroDivisionError, out)).
Proof.
  intros HNt. split.
  - intros -> HL.
    unfold ftcs_solver, truediv_int, truediv, np_linspace, np_zeros, setitem0.
    destruct (Z.eqb_spec Nt 0) as [?|_]; [lia|].
    cbv [bind ret raise print]. arith_R. simpl.
    rewrite Req0b_false.
    + destruct (Rgtb _ _); reflexivity.
    + assert (Params.L p / -1 <> 0).
      { unfold Rdiv. apply Rmult_integral_contrapositive_currified; [assumption|].
        apply Rinv_neq_0_compat. lra. }
      now apply Rmult_integral_contrapositive_currified.
  - intros HNx Hlow HL.
    unfold ftcs_solver, truediv_int, truediv, np_linspace.
    destruct (Z.eqb_spec Nx 0) as [?|_]; [lia|].
    destruct (Z.eqb_spec Nt 0) as [?|_]; [lia|].
    destruct (Z.ltb_spec (Nx + 1) 0) as [?|_]; [lia|].
    cbv [bind ret raise]. arith_R.
    rewrite Req0b_true by (rewrite HL; unfold Rdiv; ring). reflexivity.
Qed.

Lemma ftcs_solver_rejects_geometry_witness :
  fst (ftcs_solver (T := R) params (-1) 200 []) = Raise IndexError.
Proof.
  apply (proj1 (ftcs_solver_rejects_geometry params (-1) 200 [] ltac:(lia)));
    [reflexivity | params_R].
Defined.

(** A negative step count is not refused: [range(Nt)] is empty, no pass is
    made, and the initial field comes back as the result, with no warning
    since the stability ratio is then negative. *)
Theorem ftcs_solver_negative_steps (p : Params.t R) (Nx Nt : Z) out :
  valid_params p -> (1 <= Nx)%Z -> (Nt < 0)%Z ->
  ftcs_solver p Nx Nt out =
    (Ok (linspace_points 0 (Params.L p) (Nx + 1),
         Params.c0 p :: repeat 0 (Z.to_nat Nx)),
     out).
Proof.
  intros (HL & HD & Hk & Hc & HT) HNx HNt.
  rewrite ftcs_solver_returns by (lra || lia).
  replace (Z.to_nat Nt) with 0%nat by lia.
  rewrite (field_after_0 p Nx Nt) by lia.
  rewrite Rgtb_false; [now rewrite app_nil_r|].
  assert (HNtR : IZR Nt < 0) by (apply IZR_lt; lia).
  assert (HNxR : 0 < IZR Nx) by now apply IZR_pos_neq.
  unfold stability_ratio, time_increment, grid_spacing. arith_R.
  assert (Hdt : Params.T_final p / IZR Nt < 0).
  { unfold Rdiv. apply Rmult_pos_neg; [assumption|]. now apply Rinv_lt_0_compat. }
  assert (Hdx : 0 < Params.L p / IZR Nx) by now apply Rdiv_lt_0_compat.
  assert (Hsq : 0 < Params.L p / IZR Nx * (Params.L p / IZR Nx))
    by now apply Rmult_lt_0_compat.
  assert (Hnum : Params.D p * (Params.T_final p / IZR Nt) < 0)
    by now apply Rmult_pos_neg.
  assert (Params.D p * (Params.T_final p / IZR Nt)
          / (Params.L p / IZR Nx * (Params.L p / IZR Nx)) < 0).
  { unfold Rdiv at 1. apply Rmult_neg_pos; [assumption|]. now apply Rinv_0_lt_compat. }
  lra.
Qed.

Lemma ftcs_solver_negative_steps_witness :
  ftcs_solver (T := R) params 3 (-5) [] =
    (Ok (linspace_points 0 (Params.L params) 4, Params.c0 params :: [0; 0; 0]), []).
Proof.
  exact (ftcs_solver_negative_steps params 3 (-5) [] params_valid ltac:(lia) ltac:(lia)).
Defined.

(** With a single interval there is no interior node: on any carrier the
    field is [[c0; 0]] after every pass. *)
Theorem field_after_single_interval {T : Type} `{Arith T} (p : Params.t T)
    (Nt : Z) (n : nat) :
  field_after p 1 Nt n = [Params.c0 p; zero].
Proof.
  destruct n as [|n]; [reflexivity|].
  rewrite field_after_S by lia.
  assert (E : interior_update (stability_ratio p 1 Nt) (Params.k p)
                (time_increment p Nt) (field_after p 1 Nt n) = []).
  { apply length_zero_iff_nil.
    rewrite interior_update_length, field_after_length by lia. reflexivity. }
  now rewrite E.
Qed.

(** The entry of an interior node after one more pass, on the reals. *)
Lemma field_after_interior (p : Params.t R) (Nx Nt : Z) (n i : nat) :
  (1 <= Nx)%Z -> (1 <= i <= Z.to_nat Nx - 1)%nat ->
  nth i (field_after p Nx Nt (S n)) 0 =
    nth i (field_after p Nx Nt n) 0
    + stability_ratio p Nx Nt
      * (nth (S i) (field_after p Nx Nt n) 0 - 2 * nth i (field_after p Nx Nt n) 0
         + nth (i - 1) (field_after p Nx Nt n) 0)
    - Params.k p * time_increment p Nt * nth i (field_after p Nx Nt n) 0.
Proof.
  intros HNx Hi. rewrite field_after_S by lia.
  destruct i as [|i]; [lia|]. cbn [nth].
  assert (Len := field_after_length p Nx Nt n ltac:(lia)).
  rewrite app_nth1 by (rewrite interior_update_length, Len; lia).
  rewrite nth_interior_update by (rewrite Len; lia).
  replace (S i - 1)%nat with i by lia. arith_R. reflexivity.
Qed.

Lemma field_after_source (p : Params.t R) (Nx Nt : Z) (n : nat) :
  (1 <= Nx)%Z -> nth 0 (field_after p Nx Nt n) 0 = Params.c0 p.
Proof.
  intros HNx. destruct n.
  - now rewrite (field_after_0 p Nx Nt) by lia.
  - now rewrite field_after_S by lia.
Qed.

Lemma field_after_sink (p : Params.t R) (Nx Nt : Z) (n : nat) :
  (1 <= Nx)%Z -> nth (Z.to_nat Nx) (field_after p Nx Nt n) 0 = 0.
Proof.
  intros HNx. destruct n.
  - rewrite (field_after_0 p Nx Nt) by lia.
    replace (Z.to_nat Nx) with (S (Z.to_nat (Nx - 1))) at 1 by lia.
    cbn [nth]. arith_R. apply nth_repeat.
  - rewrite field_after_S by lia.
    assert (Len := field_after_length p Nx Nt n ltac:(lia)).
    replace (Z.to_nat Nx) with (S (Z.to_nat (Nx - 1))) by lia.
    cbn [nth].
    rewrite app_nth2; rewrite interior_update_length, Len;
      replace (Z.to_nat (Nx + 1) - 2)%nat with (Z.to_nat (Nx - 1)) by lia; [|lia].
    now rewrite Nat.sub_diag.
Qed.




(** ** Linearity, monotonicity and the stationary profile *)

Lemma interior_update_scale (alpha k dt s : R) (c : list R) :
  interior_update alpha k dt (map (Rmult s) c) =
    map (Rmult s) (interior_update alpha k dt c).
Proof.
  apply (nth_ext _ _ 0 0).
  - now rewrite length_map, !interior_update_length, length_map.
  - intros i Hi. rewrite interior_update_length, length_map in Hi.
    rewrite nth_interior_update by (rewrite length_map; lia).
    rewrite (nth_indep (map (Rmult s) (interior_update alpha k dt c)) 0 (s * 0))
      by (rewrite length_map, interior_update_length; lia).
    rewrite (map_nth (Rmult s)).
    rewrite nth_interior_update by lia.
    rewrite !(nth_indep (map (Rmult s) c) 0 (s * 0)) by (rewrite length_map; lia).
    rewrite !(map_nth (Rmult s)). arith_R. ring.
Qed.

(** The scheme is linear in the source concentration: with [s * c0] in
    place of [c0], the field after every pass is [s] times the field of
    [c0]. *)
Theorem field_after_linear_in_source (p : Params.t R) (Nx Nt : Z) (s : R) (n : nat) :
  (1 <= Nx)%Z ->
  field_after (with_source p (s * Params.c0 p)) Nx Nt n =
    map (Rmult s) (field_after p Nx Nt n).
Proof.
  intros HNx. induction n as [|n IH].
  - rewrite !(field_after_0 _ Nx Nt) by lia. cbn [with_source Params.c0 map].
    f_equal. arith_R. rewrite map_repeat. now rewrite Rmult_0_r.
  - rewrite !field_after_S by lia. rewrite IH.
    change (stability_ratio (with_source p (s * Params.c0 p)) Nx Nt)
      with (stability_ratio p Nx Nt).
    change (time_increment (with_source p (s * Params.c0 p)) Nt)
      with (time_increment p Nt).
    cbn [with_source Params.c0 Params.k map].
    rewrite interior_update_scale, map_app. cbn [map]. arith_R.
    now rewrite Rmult_0_r.
Qed.

Lemma field_after_linear_in_source_witness :
  field_after (with_source params (3 * Params.c0 params)) 50 200 200 =
    map (Rmult 3) (field_after params 50 200 200).
Proof.
  exact (field_after_linear_in_source params 50 200 3 200 ltac:(lia)).
Defined.

Lemma field_after_in_range (p : Params.t R) (Nx Nt : Z) (n : nat) :
  valid_params p -> (1 <= Nx)%Z -> (1 <= Nt)%Z ->
  2 * stability_ratio p Nx Nt + Params.k p * time_increment p Nt <= 1 ->
  Forall (fun v => 0 <= v <= Params.c0 p) (field_after p Nx Nt n).
Proof.
  intros Hv HNx HNt Hs.
  destruct (stability_ratio_pos p Nx Nt Hv HNx HNt) as [Ha Hk].
  destruct Hv as (HL & HD & Hk0 & Hc & HT).
  induction n as [|n IH].
  - rewrite (field_after_0 p Nx Nt) by lia.
    constructor; [lra|]. apply Forall_forall. intros v Hin.
    apply repeat_spec in Hin. subst v. arith_R. lra.
  - rewrite field_after_S by lia.
    constructor; [lra|]. apply Forall_app. split.
    + apply interior_update_in_range; auto. lra.
    + constructor; [arith_R; lra | constructor].
Qed.

Lemma stencil_monotone (alpha kdt a b c a' b' c' : R) :
  0 <= alpha -> 0 <= kdt -> 2 * alpha + kdt <= 1 ->
  a <= a' -> b <= b' -> c <= c' ->
  a + alpha * (b - 2 * a + c) - kdt * a <= a' + alpha * (b' - 2 * a' + c') - kdt * a'.
Proof.
  intros Ha Hk Hs Haa Hbb Hcc.
  assert (0 <= (1 - 2 * alpha - kdt) * (a' - a)) by (apply Rmult_le_pos; lra).
  assert (0 <= alpha * (b' - b)) by (apply Rmult_le_pos; lra).
  assert (0 <= alpha * (c' - c)) by (apply Rmult_le_pos; lra).
  nra.
Qed.

(** Under the condition [2*alpha + k*dt <= 1] the concentration never
    decreases from one pass to the next, at any node. *)
Theorem field_after_monotone_in_time (p : Params.t R) (Nx Nt : Z) (n i : nat) :
  valid_params p -> (1 <= Nx)%Z -> (1 <= Nt)%Z ->
  2 * stability_ratio p Nx Nt + Params.k p * time_increment p Nt <= 1 ->
  nth i (field_after p Nx Nt n) 0 <= nth i (field_after p Nx Nt (S n)) 0.
Proof.
  intros Hv HNx HNt Hs. revert i.
  destruct (stability_ratio_pos p Nx Nt Hv HNx HNt) as [Ha Hk].
  assert (Hcase : forall m i,
            (forall j, nth j (field_after p Nx Nt m) 0
                       <= nth j (field_after p Nx Nt (S m)) 0) ->
            nth i (field_after p Nx Nt (S m)) 0
            <= nth i (field_after p Nx Nt (S (S m))) 0).
  { intros m i IH.
    destruct (Nat.eq_dec i 0) as [->|Hi0].
    { rewrite !field_after_source by lia. lra. }
    destruct (Nat.eq_dec i (Z.to_nat Nx)) as [->|HiN].
    { rewrite !field_after_sink by lia. lra. }
    destruct (Nat.lt_ge_cases i (Z.to_nat Nx)) as [Hlt|Hge].
    - refine (Rle_trans _ _ _
                (Req_le _ _ (field_after_interior p Nx Nt m i HNx ltac:(lia))) _).
      rewrite (field_after_interior p Nx Nt (S m) i) by lia.
      apply stencil_monotone; auto; try lra; apply IH.
    - rewrite !nth_overflow by (rewrite field_after_length; lia). lra. }
  induction n as [|n IH]; intros i.
  - destruct (Nat.eq_dec i 0) as [->|Hi0].
    { rewrite !field_after_source by lia. lra. }
    pose proof (field_after_in_range p Nx Nt 1 Hv HNx HNt Hs) as H1.
    rewrite (field_after_0 p Nx Nt) by lia.
    destruct i as [|i]; [lia|]. cbn [nth].
    replace (nth i (repeat zero (Z.to_nat Nx)) 0) with 0.
    2:{ arith_R. destruct (Nat.lt_ge_cases i (Z.to_nat Nx)).
        - now rewrite nth_repeat_lt.
        - now rewrite nth_overflow by (rewrite repeat_length; lia). }
    destruct (Nat.lt_ge_cases (S i) (length (field_after p Nx Nt 1))) as [Hlt|Hge].
    + exact (proj1 (proj1 (Forall_nth _ _) H1 (S i) 0 Hlt)).
    + rewrite nth_overflow by assumption. lra.
  - apply Hcase. exact IH.
Qed.

Lemma field_after_monotone_in_time_witness :
  nth 1 (field_after (T := R) params 50 200 7) 0
  <= nth 1 (field_after (T := R) params 50 200 8) 0.
Proof.
  apply (field_after_monotone_in_time params 50 200 7 1 params_valid);
    try lia.
  rewrite stability_ratio_formula. unfold time_increment. arith_R. params_R.
Defined.

Lemma linear_profile_length (c0 : R) (Nx : Z) :
  length (linear_profile c0 Nx) = Z.to_nat (Nx + 1).
Proof. unfold linear_profile. now rewrite length_map, length_seq. Qed.

Lemma nth_linear_profile (c0 : R) (Nx : Z) (i : nat) :
  (i <= Z.to_nat Nx)%nat -> (0 <= Nx)%Z ->
  nth i (linear_profile c0 Nx) 0 = c0 * (1 - INR i / IZR Nx).
Proof.
  intros Hi HNx. unfold linear_profile.
  rewrite (nth_indep _ 0 ((fun j => c0 * (1 - INR j / IZR Nx)) 0%nat))
    by (rewrite length_map, length_seq; lia).
  rewrite (map_nth (fun j => c0 * (1 - INR j / IZR Nx))).
  rewrite seq_nth by lia. reflexivity.
Qed.

(** Without decay the straight line from [c0] to [0] is stationary: one pass
    of the loop, for any [alpha] and [dt], gives it back unchanged. *)
Theorem time_step_linear_profile (alpha dt c0 : R) (Nx : Z) (c_new : list R) :
  (1 <= Nx)%Z -> length c_new = Z.to_nat (Nx + 1) ->
  time_step alpha 0 dt c0 (linear_profile c0 Nx, c_new) =
    (linear_profile c0 Nx, linear_profile c0 Nx).
Proof.
  intros HNx Hlen.
  assert (E : Z.to_nat (Nx + 1) = S (S (Z.to_nat (Nx - 1)))) by lia.
  assert (HNxR : 0 < IZR Nx) by now apply IZR_pos_neq.
  rewrite (time_step_shape alpha 0 dt c0 _ c_new (Z.to_nat (Nx - 1)))
    by (rewrite ?linear_profile_length; lia).
  assert (F : c0 :: interior_update alpha 0 dt (linear_profile c0 Nx) ++ [zero]
              = linear_profile c0 Nx).
  { apply (nth_ext _ _ 0 0).
    - cbn [length]. rewrite length_app, interior_update_length, linear_profile_length.
      simpl. lia.
    - intros i Hi. cbn [length] in Hi.
      rewrite length_app, interior_update_length, linear_profile_length in Hi.
      simpl in Hi.
      rewrite nth_linear_profile by lia.
      destruct i as [|i]; cbn [nth].
      + simpl. field. lra.
      + destruct (Nat.eq_dec (S i) (Z.to_nat Nx)) as [HiN|HiN].
        * rewrite app_nth2 by (rewrite interior_update_length, linear_profile_length; lia).
          rewrite interior_update_length, linear_profile_length.
          replace (i - (Z.to_nat (Nx + 1) - 2))%nat with 0%nat by lia.
          cbn [nth]. arith_R. rewrite HiN, INR_IZR_INZ, Z2Nat.id by lia.
          field. lra.
        * rewrite app_nth1 by (rewrite interior_update_length, linear_profile_length; lia).
          rewrite nth_interior_update by (rewrite linear_profile_length; lia).
          rewrite !nth_linear_profile by lia. arith_R.
          rewrite !S_INR. field. lra. }
  now rewrite F.
Qed.

Lemma time_step_linear_profile_witness :
  time_step (1 / 4) 0 9 1 (linear_profile 1 4, [0; 0; 0; 0; 0]) =
    (linear_profile 1 4, linear_profile 1 4).
Proof.
  exact (time_step_linear_profile (1 / 4) 9 1 4 [0; 0; 0; 0; 0] ltac:(lia) eq_refl).
Defined.

(** ** The reference solution: values, errors, decay of the transient *)

Lemma analytical_concentration_finite_run (p : Params.t R) (x_arr : list R) (t : R)
    (n_terms : Z) out :
  0 < Params.L p -> 0 < Params.D p -> 0 < Params.k p ->
  analytical_concentration x_arr t p n_terms out =
    (Ok (asarray
           (map (fun x =>
                   steady_term (Params.L p) (Params.D p) (Params.k p) (Params.c0 p) x
                   + transient_sum (Params.L p) (Params.D p) (Params.k p) (Params.c0 p)
                       t (range 1 (n_terms + 1)) x)
                x_arr)),
     out).
Proof.
  intros HL HD Hk. rewrite analytical_concentration_run by lra.
  f_equal. f_equal. unfold asarray. rewrite map_map. apply map_ext. intros x.
  rewrite np_div_some; [reflexivity|].
  apply Rgt_not_eq, sinh_pos, Rmult_lt_0_compat; [|lra].
  apply sqrt_lt_R0. now apply Rdiv_lt_0_compat.
Qed.



(** A zero diffusion coefficient is a division by zero of line 18; a zero
    length is one of line 28 as soon as one mode is summed. *)
Theorem analytical_concentration_rejects (p : Params.t R) (x_arr : list R) (t : R)
    (n_terms : Z) out :
  (Params.D p = 0 ->
     analytical_concentration x_arr t p n_terms out = (Raise ZeroDivisionError, out)) /\
  (Params.D p <> 0 -> Params.L p = 0 -> (1 <= n_terms)%Z ->
     analytical_concentration x_arr t p n_terms out = (Raise ZeroDivisionError, out)).
Proof.
  split.
  - intros HD. unfold analytical_concentration, truediv. arith_R.
    now rewrite Req0b_true.
  - intros HD HL Hn. unfold analytical_concentration.
    rewrite (bind_ok _ _ _ _ _ (truediv_R_ok _ (Params.D p) out HD)).
    unfold range. replace (Z.to_nat (n_terms + 1 - 1)) with (S (Z.to_nat (n_terms - 1))) by lia.
    cbn [seq map for_each]. unfold add_mode at 1, truediv at 1. arith_R.
    rewrite Req0b_true by assumption. reflexivity.
Qed.

Lemma analytical_concentration_rejects_witness :
  analytical_concentration [0; 1] 1
    {| Params.L := 0; Params.D := 1; Params.k := 1; Params.c0 := 1;
       Params.T_final := 1 |} 50 []
  = (Raise ZeroDivisionError, []).
Proof.
  apply (proj2 (analytical_concentration_rejects _ [0; 1] 1 50 []));
    cbn [Params.L Params.D]; (lra || lia || reflexivity).
Defined.

(** With a truncation order of zero, or a negative one, no mode is summed:
    the evaluator returns the steady state alone. *)
Theorem analytical_concentration_no_mode (p : Params.t R) (x_arr : list R) (t : R)
    (n_terms : Z) out :
  valid_params p -> 0 < Params.k p -> (n_terms <= 0)%Z ->
  analytical_concentration x_arr t p n_terms out =
    (Ok (asarray (map (steady_term (Params.L p) (Params.D p) (Params.k p) (Params.c0 p))
                      x_arr)),
     out).
Proof.
  intros (HL & HD & _) Hk Hn.
  rewrite analytical_concentration_finite_run by assumption.
  f_equal. f_equal. f_equal. apply map_ext. intros x.
  unfold range. replace (Z.to_nat (n_terms + 1 - 1)) with 0%nat by lia.
  cbn [seq map]. unfold transient_sum. cbn [fold_left]. ring.
Qed.

Lemma analytical_concentration_no_mode_witness :
  analytical_concentration [0] 7200 params 0 [] =
    (Ok (asarray [steady_term (Params.L params) (Params.D params) (Params.k params)
                    (Params.c0 params) 0]), []).
Proof.
  assert (Hk : 0 < Params.k (params (T := R))) by params_R.
  exact (analytical_concentration_no_mode params [0] 7200 0 [] params_valid Hk
           ltac:(lia)).
Defined.





(** *** Decay of the transient *)

Lemma exp_monotone (x y : R) : x <= y -> exp x <= exp y.
Proof.
  intros [Hlt | ->]; [left; now apply exp_increasing | right; reflexivity].
Qed.

Lemma mode_term_factors (L D k c0 t : R) (n : Z) (x : R) :
  mode_term L D k c0 t n x =
    fourier_coefficient L D k c0 n * sin (IZR n * PI * x / L)
    * exp (- (D * ((IZR n * PI / L) * (IZR n * PI / L)) + k) * t).
Proof. reflexivity. Qed.

Lemma mode_term_bound (L D k c0 t : R) (n : Z) (x : R) :
  0 < L -> 0 < D -> 0 <= t -> (1 <= n)%Z ->
  Rabs (mode_term L D k c0 t n x) <=
    Rabs (fourier_coefficient L D k c0 n)
    * exp (- (D * ((PI / L) * (PI / L)) + k) * t).
Proof.
  intros HL HD Ht Hn. rewrite mode_term_factors, !Rabs_mult.
  assert (Hpi : 0 < PI / L) by (apply Rdiv_lt_0_compat; [apply PI_RGT_0 | assumption]).
  assert (HnR : 1 <= IZR n) by now apply IZR_le.
  assert (Hq : PI / L <= IZR n * PI / L).
  { replace (IZR n * PI / L) with (IZR n * (PI / L)) by (unfold Rdiv; ring).
    assert (0 <= (IZR n - 1) * (PI / L)) by (apply Rmult_le_pos; lra). lra. }
  assert (Hlam : (PI / L) * (PI / L) <= (IZR n * PI / L) * (IZR n * PI / L))
    by (apply Rmult_le_compat; lra).
  assert (Hexp : exp (- (D * ((IZR n * PI / L) * (IZR n * PI / L)) + k) * t)
                 <= exp (- (D * ((PI / L) * (PI / L)) + k) * t)).
  { apply exp_monotone.
    set (a := (IZR n * PI / L) * (IZR n * PI / L)) in *.
    set (b := (PI / L) * (PI / L)) in *.
    assert (0 <= D * (a - b) * t)
      by (apply Rmult_le_pos; [apply Rmult_le_pos|]; lra).
    lra. }
  assert (Hsin : Rabs (sin (IZR n * PI * x / L)) <= 1).
  { apply Rabs_le. destruct (SIN_bound (IZR n * PI * x / L)). lra. }
  rewrite (Rabs_pos_eq (exp _)) by (left; apply exp_pos).
  pose proof (Rabs_pos (fourier_coefficient L D k c0 n)) as Hb.
  pose proof (exp_pos (- (D * ((IZR n * PI / L) * (IZR n * PI / L)) + k) * t)) as He.
  pose proof (Rabs_pos (sin (IZR n * PI * x / L))) as Hs0.
  apply Rle_trans with
    (Rabs (fourier_coefficient L D k c0 n) * 1
     * exp (- (D * (IZR n * PI / L * (IZR n * PI / L)) + k) * t)).
  - apply Rmult_le_compat_r; [lra|]. apply Rmult_le_compat_l; assumption.
  - rewrite Rmult_1_r. apply Rmult_le_compat_l; assumption.
Qed.

Lemma fold_left_sum_bound (f g : Z -> R) (ns : list Z) (acc : R) :
  (forall n, In n ns -> Rabs (f n) <= g n) ->
  Rabs (fold_left (fun a n => a + f n) ns acc)
  <= Rabs acc + fold_right Rplus 0 (map g ns).
Proof.
  revert acc. induction ns as [|n ns IH]; intros acc Hb; cbn [fold_left map fold_right].
  - lra.
  - eapply Rle_trans; [apply IH; intros m Hm; apply Hb; now right|].
    pose proof (Rabs_triang acc (f n)).
    pose proof (Hb n (or_introl eq_refl)). lra.
Qed.

Lemma sum_scaled (g : Z -> R) (e : R) (ns : list Z) :
  fold_right Rplus 0 (map (fun n => g n * e) ns)
  = fold_right Rplus 0 (map g ns) * e.
Proof. induction ns as [|n ns IH]; cbn [map fold_right]; [ring | rewrite IH; ring]. Qed.

(** The value returned at a coordinate differs from the steady state there
    by at most the sum of the absolute Fourier coefficients times
    [exp(-(D*(pi/L)^2 + k)*t)]: the transient dies out at least at the rate
    of its slowest mode. *)
Theorem analytical_concentration_transient_decay (p : Params.t R) (x_arr : list R)
    (t : R) (n_terms : Z) out :
  valid_params p -> 0 < Params.k p -> 0 <= t ->
  let L := Params.L p in
  let D := Params.D p in
  let k := Params.k p in
  let c0 := Params.c0 p in
  let B := fold_right Rplus 0
             (map (fun n => Rabs (fourier_coefficient L D k c0 n))
                  (range 1 (n_terms + 1))) in
  exists c,
    analytical_concentration x_arr t p n_terms out = (Ok (asarray c), out) /\
    length c = length x_arr /\
    forall i, (i < length x_arr)%nat ->
      Rabs (nth i c 0 - steady_term L D k c0 (nth i x_arr 0))
      <= B * exp (- (D * ((PI / L) * (PI / L)) + k) * t).
Proof.
  intros (HL & HD & _) Hk Ht L D k c0 B. subst L D k c0 B.
  eexists. split; [apply analytical_concentration_finite_run; assumption|].
  split; [apply length_map|].
  intros i Hi.
  set (value := fun x : R => _).
  rewrite (nth_indep _ 0 (value 0)) by now rewrite length_map.
  rewrite (map_nth value). unfold value.
  match goal with |- Rabs (?s + ?tr - ?s) <= _ => replace (s + tr - s) with tr by ring end.
  unfold transient_sum.
  eapply Rle_trans.
  - apply (fold_left_sum_bound _
             (fun n => Rabs (fourier_coefficient (Params.L p) (Params.D p) (Params.k p)
                               (Params.c0 p) n)
                       * exp (- (Params.D p * ((PI / Params.L p) * (PI / Params.L p))
                                 + Params.k p) * t))).
    intros n Hn. apply mode_term_bound; auto. now apply (range_ge 1 (n_terms + 1)).
  - rewrite Rabs_R0, Rplus_0_l, sum_scaled. apply Rle_refl.
Qed.

Lemma analytical_concentration_transient_decay_witness :
  exists c,
    analytical_concentration [25 / 10000] 7200 params 50 [] = (Ok (asarray c), []) /\
    length c = 1%nat.
Proof.
  assert (Hk : 0 < Params.k (params (T := R))) by params_R.
  destruct (analytical_concentration_transient_decay params [25 / 10000] 7200 50 []
              params_valid Hk ltac:(lra)) as (c & E & Hl & _).
  exists c. split; assumption.
Defined.

(** ** The RMS error: when it is finite, and how large it can be *)










(** ** The records of the study *)

Lemma study_loop_records (err : Z -> Run R npfloat) (L : R) (grids : list Z) :
  forall errors dx_values out es dxs out',
    study_loop_with err L grids errors dx_values out = (Ok (es, dxs), out') ->
    exists m es',
      (m <= length grids)%nat /\ length es' = m /\
      es = errors ++ es' /\
      dxs = dx_values ++ map (fun N => L / IZR N) (firstn m grids).
Proof.
  induction grids as [|N grids IH]; intros errors dx_values out es dxs out' E.
  - cbn in E. injection E as <- <- _. exists 0%nat, []. simpl.
    rewrite !app_nil_r. repeat split; lia.
  - cbn [study_loop_with] in E. unfold bind at 1 in E.
    destruct (err N out) as [[[e|]|ex] o1].
    + unfold bind at 1, truediv_int in E.
      destruct (Z.eqb_spec N 0) as [HN|HN]; [discriminate|].
      cbv [ret] in E. arith_R.
      destruct (IH _ _ _ _ _ _ E) as (m & es' & Hm & Hl & -> & ->).
      exists (S m), (e :: es'). cbn [length firstn map].
      rewrite <- !app_assoc. repeat split; simpl; lia || reflexivity.
    + cbv [bind print ret] in E. injection E as <- <- _.
      exists 0%nat, []. simpl. rewrite !app_nil_r. repeat split; lia.
    + discriminate.
Qed.

(** Whatever the errors are, when the loop of the study ends without an
    exception its two lists are aligned: as many errors as grid spacings,
    and the spacings are [L/N] for a prefix of the node counts, in order. *)
Theorem study_loop_records_aligned (err : Z -> Run R npfloat) (L : R)
    (grids : list Z) out es dxs out' :
  study_loop_with err L grids [] [] out = (Ok (es, dxs), out') ->
  length es = length dxs /\
  (length es <= length grids)%nat /\
  dxs = map (fun N => L / IZR N) (firstn (length es) grids).
Proof.
  intros E.
  destruct (study_loop_records err L grids [] [] out es dxs out' E)
    as (m & es' & Hm & Hl & -> & ->).
  cbn [app]. rewrite length_map, length_firstn, Hl.
  repeat split; lia.
Qed.

Lemma study_loop_records_aligned_witness :
  length [1; 1] = length [1 / 20; 1 / 40] /\
  (length [1; 1] <= length [20; 40; 80; 160]%Z)%nat /\
  [1 / 20; 1 / 40] =
    map (fun N => 1 / IZR N) (firstn (length [1; 1]) [20; 40; 80; 160]%Z).
Proof.
  apply (study_loop_records_aligned
           (fun N => ret (if (N <? 80)%Z then Some 1 else None)) 1
           [20; 40; 80; 160]%Z [] [1; 1] [1 / 20; 1 / 40] [GridUnstable 80]).
  reflexivity.
Defined.





(** ** The slope fit *)

Lemma all_finite_asarray (l : list R) : all_finite (asarray l) = Some l.
Proof. induction l as [|x l IH]; simpl; [reflexivity | now rewrite IH]. Qed.

Lemma log_asarray (l : list R) :
  Forall (fun d => 0 < d) l -> map np_log (asarray l) = asarray (map ln l).
Proof.
  induction 1 as [|d l Hd _ IH]; [reflexivity|].
  unfold asarray in *. cbn [map]. now rewrite np_log_some, IH.
Qed.

(** The least-squares line through finite points whose abscissas are not
    all equal. *)
Lemma np_polyfit1_finite (xs ys : list R) out :
  xs <> [] -> length xs = length ys ->
  INR (length xs) * fold_right Rplus 0 (map (fun a => a * a) xs)
    - fold_right Rplus 0 xs * fold_right Rplus 0 xs <> 0 ->
  np_polyfit1 (asarray xs) (asarray ys) out =
    (Ok ((INR (length xs) * fold_right Rplus 0 (map2 Rmult xs ys)
          - fold_right Rplus 0 xs * fold_right Rplus 0 ys)
         / (INR (length xs) * fold_right Rplus 0 (map (fun a => a * a) xs)
            - fold_right Rplus 0 xs * fold_right Rplus 0 xs),
         (fold_right Rplus 0 ys
          - (INR (length xs) * fold_right Rplus 0 (map2 Rmult xs ys)
             - fold_right Rplus 0 xs * fold_right Rplus 0 ys)
            / (INR (length xs) * fold_right Rplus 0 (map (fun a => a * a) xs)
               - fold_right Rplus 0 xs * fold_right Rplus 0 xs)
            * fold_right Rplus 0 xs)
         / INR (length xs)),
     out).
Proof.
  intros Hne Hlen Hdet. unfold np_polyfit1.
  destruct xs as [|x xs]; [congruence|].
  change (asarray (x :: xs)) with (Some x :: asarray xs).
  cbv beta iota.
  change (Some x :: asarray xs) with (asarray (x :: xs)).
  assert (El : (length (asarray (x :: xs)) =? length (asarray ys))%nat = true).
  { apply Nat.eqb_eq. unfold asarray. rewrite !length_map. exact Hlen. }
  rewrite El. cbn [negb].
  rewrite !all_finite_asarray.
  rewrite Req0b_false by assumption. reflexivity.
Qed.

Lemma sum_affine (q p : R) (xs : list R) :
  fold_right Rplus 0 (map (fun x => q + p * x) xs)
  = INR (length xs) * q + p * fold_right Rplus 0 xs.
Proof.
  induction xs as [|x xs IH]; [simpl; ring|].
  cbn [map fold_right length]. rewrite S_INR, IH. ring.
Qed.

Lemma sum_product_affine (q p : R) (xs : list R) :
  fold_right Rplus 0 (map2 Rmult xs (map (fun x => q + p * x) xs))
  = q * fold_right Rplus 0 xs + p * fold_right Rplus 0 (map (fun a => a * a) xs).
Proof.
  induction xs as [|x xs IH]; [simpl; ring|].
  cbn [map map2 fold_right]. rewrite IH. ring.
Qed.

Lemma sum_square_deviations (m : R) (xs : list R) :
  fold_right Rplus 0 (map (fun x => (x - m) * (x - m)) xs)
  = fold_right Rplus 0 (map (fun a => a * a) xs)
    - 2 * m * fold_right Rplus 0 xs + INR (length xs) * (m * m).
Proof.
  induction xs as [|x xs IH]; [simpl; ring|].
  cbn [map fold_right length]. rewrite S_INR, IH. ring.
Qed.

Lemma sum_squares_zero (f : R -> R) (xs : list R) :
  fold_right Rplus 0 (map (fun x => f x * f x) xs) = 0 ->
  forall x, In x xs -> f x = 0.
Proof.
  assert (Hpos : forall l, 0 <= fold_right Rplus 0 (map (fun x => f x * f x) l)).
  { induction l as [|y l IH]; cbn [map fold_right]; [lra|].
    pose proof (Rle_0_sqr (f y)) as Hs. unfold Rsqr in Hs. lra. }
  induction xs as [|y xs IH]; intros Hz x Hin; [contradiction|].
  cbn [map fold_right] in Hz.
  pose proof (Rle_0_sqr (f y)) as Hs. unfold Rsqr in Hs.
  pose proof (Hpos xs) as Hr.
  destruct Hin as [->|Hin].
  - assert (E : f x * f x = 0) by lra.
    apply Rmult_integral in E. tauto.
  - apply IH; [lra | assumption].
Qed.

(** The normal equations are singular only when all abscissas are equal. *)
Lemma determinant_nonzero (xs : list R) (a b : R) :
  In a xs -> In b xs -> a <> b ->
  INR (length xs) * fold_right Rplus 0 (map (fun a => a * a) xs)
    - fold_right Rplus 0 xs * fold_right Rplus 0 xs <> 0.
Proof.
  intros Ha Hb Hab Hdet.
  assert (Hn : 0 < INR (length xs)).
  { apply INR_length_pos. intros ->. contradiction. }
  set (m := fold_right Rplus 0 xs / INR (length xs)).
  assert (Hz : fold_right Rplus 0 (map (fun x => (x - m) * (x - m)) xs) = 0).
  { rewrite sum_square_deviations.
    assert (Hnm : INR (length xs) * m = fold_right Rplus 0 xs)
      by (unfold m; field; lra).
    apply Rmult_eq_reg_l with (INR (length xs)); [|lra].
    rewrite Rmult_0_r. etransitivity; [|exact Hdet].
    transitivity
      (INR (length xs) * fold_right Rplus 0 (map (fun a0 => a0 * a0) xs)
       - 2 * (INR (length xs) * m) * fold_right Rplus 0 xs
       + (INR (length xs) * m) * (INR (length xs) * m)); [ring|].
    rewrite Hnm. ring. }
  pose proof (sum_squares_zero (fun x => x - m) xs Hz a Ha) as Ea.
  pose proof (sum_squares_zero (fun x => x - m) xs Hz b Hb) as Eb.
  cbv beta in Ea, Eb. lra.
Qed.

Lemma ln_power_law (C p d : R) : 0 < C -> ln (C * Rpower d p) = ln C + p * ln d.
Proof.
  intros HC. unfold Rpower. rewrite ln_mult by (assumption || apply exp_pos).
  now rewrite ln_exp.
Qed.

(** The fit on records whose logarithms lie on one line [q + p * ln dx]. *)
Lemma slope_fit_log_linear (f : R -> R) (q p : R) (dx_values : list R) (d1 d2 : R) out :
  (forall d, 0 < d -> 0 < f d /\ ln (f d) = q + p * ln d) ->
  Forall (fun d => 0 < d) dx_values ->
  In d1 dx_values -> In d2 dx_values -> d1 <> d2 ->
  slope_fit (map f dx_values) dx_values out = (Ok (p, q), out ++ [SlopeReport p]).
Proof.
  intros Hf Hpos H1 H2 Hne. unfold slope_fit.
  rewrite (log_asarray dx_values Hpos).
  rewrite log_asarray.
  2:{ apply Forall_map. apply Forall_forall. intros d Hd.
      rewrite Forall_forall in Hpos. now apply Hf, Hpos. }
  assert (Ey : map ln (map f dx_values) = map (fun x => q + p * x) (map ln dx_values)).
  { rewrite !map_map. apply map_ext_in. intros d Hd.
    rewrite Forall_forall in Hpos. now apply Hf, Hpos. }
  rewrite Ey.
  set (xs := map ln dx_values).
  assert (Hin1 : In (ln d1) xs) by (apply in_map; assumption).
  assert (Hin2 : In (ln d2) xs) by (apply in_map; assumption).
  assert (Hln : ln d1 <> ln d2).
  { intros E. apply Hne.
    rewrite Forall_forall in Hpos. apply ln_inv; auto. }
  pose proof (determinant_nonzero xs (ln d1) (ln d2) Hin1 Hin2 Hln) as Hdet.
  assert (Hxs : xs <> []) by (intros E; rewrite E in Hin1; contradiction).
  assert (Hn : 0 < INR (length xs)) by now apply INR_length_pos.
  rewrite (bind_ok _ _ _ _ _
             (np_polyfit1_finite xs (map (fun x => q + p * x) xs) out Hxs
                ltac:(now rewrite length_map) Hdet)).
  rewrite sum_product_affine, sum_affine.
  set (n := INR (length xs)) in *.
  set (Sx := fold_right Rplus 0 xs) in *.
  set (Sxx := fold_right Rplus 0 (map (fun a => a * a) xs)) in *.
  assert (Es : (n * (q * Sx + p * Sxx) - Sx * (n * q + p * Sx))
               / (n * Sxx - Sx * Sx) = p) by (field; assumption).
  rewrite Es.
  assert (Ei : (n * q + p * Sx - p * Sx) / n = q) by (field; lra).
  rewrite Ei.
  reflexivity.
Qed.

(** The fit recovers a power law exactly: when the errors are
    [C * dx^p] at grid spacings that are positive and not all equal, the
    reported slope is [p] and the intercept is [ln C], with no warning. *)
Theorem slope_fit_power_law (C p : R) (dx_values : list R) (d1 d2 : R) out :
  0 < C -> Forall (fun d => 0 < d) dx_values ->
  In d1 dx_values -> In d2 dx_values -> d1 <> d2 ->
  slope_fit (map (fun d => C * Rpower d p) dx_values) dx_values out =
    (Ok (p, ln C), out ++ [SlopeReport p]).
Proof.
  intros HC Hpos H1 H2 Hne.
  apply (slope_fit_log_linear (fun d => C * Rpower d p) (ln C) p dx_values d1 d2);
    try assumption.
  intros d _. split.
  - apply Rmult_lt_0_compat; [assumption | apply exp_pos].
  - now apply ln_power_law.
Qed.

(** Errors [3 * dx^2] at the spacings [1/20] and [1/40]: the slope is [2]. *)
Lemma slope_fit_power_law_witness :
  slope_fit (map (fun d => 3 * Rpower d 2) [1 / 20; 1 / 40]) [1 / 20; 1 / 40] [] =
    (Ok (2, ln 3), [SlopeReport 2]).
Proof.
  apply (slope_fit_power_law 3 2 [1 / 20; 1 / 40] (1 / 20) (1 / 40) []).
  - lra.
  - repeat constructor; lra.
  - now left.
  - right. now left.
  - lra.
Defined.

(** ** The reference line of the plot *)

(** The line drawn as "Reference Slope = 2" goes through the first record
    and has, under the very fit of the study, the slope [2]: for positive
    spacings that are not all equal and a positive first error. *)
Theorem reference_line_slope (e0 d0 d1 d2 : R) (es ds : list R) out :
  0 < e0 -> Forall (fun d => 0 < d) (d0 :: ds) ->
  In d1 (d0 :: ds) -> In d2 (d0 :: ds) -> d1 <> d2 ->
  exists line,
    reference_line (e0 :: es) (d0 :: ds) out = (Ok (asarray line), out) /\
    nth 0 line 0 = e0 /\
    slope_fit line (d0 :: ds) out =
      (Ok (2, ln (e0 / (d0 * d0))), out ++ [SlopeReport 2]).
Proof.
  intros He Hpos H1 H2 Hne.
  assert (Hd0 : 0 < d0) by now inversion Hpos.
  exists (map (fun d => e0 * ((d / d0) * (d / d0))) (d0 :: ds)).
  split; [|split].
  - unfold reference_line, ret, asarray. rewrite map_map.
    apply (f_equal (fun l => (Ok l, out))).
    apply map_ext. intros d.
    cbn [np_arith mul div np_lift2].
    rewrite np_div_some by lra. reflexivity.
  - cbn [map nth]. field. lra.
  - apply (slope_fit_log_linear (fun d => e0 * ((d / d0) * (d / d0)))
             (ln (e0 / (d0 * d0))) 2 (d0 :: ds) d1 d2); try assumption.
    intros d Hd.
    assert (Hq : 0 < d / d0) by now apply Rdiv_lt_0_compat.
    assert (Hdd : 0 < d0 * d0) by now apply Rmult_lt_0_compat.
    split; [apply Rmult_lt_0_compat; [assumption | now apply Rmult_lt_0_compat]|].
    replace (e0 * (d / d0 * (d / d0))) with (e0 / (d0 * d0) * (d * d))
      by (field; lra).
    rewrite ln_mult, ln_mult by
      (assumption || apply Rdiv_lt_0_compat || apply Rmult_lt_0_compat; assumption).
    ring.
Qed.

Lemma reference_line_slope_witness :
  exists line,
    reference_line [3; 1] [1 / 20; 1 / 40] [] = (Ok (asarray line), []) /\
    nth 0 line 0 = 3.
Proof.
  destruct (reference_line_slope 3 (1 / 20) (1 / 20) (1 / 40) [1] [1 / 40] [])
    as (line & E & E0 & _).
  - lra.
  - repeat constructor; lra.
  - now left.
  - right. now left.
  - lra.
  - exists line. split; assumption.
Defined.

(** Without a record there is no reference line either: indexing the empty
    arrays raises [IndexError]. *)
Example reference_line_no_record : reference_line [] [] [] = (Raise IndexError, []).
Proof. reflexivity. Qed.
